(** * Leptos: signal setters, element builders, document title, and the
    reactive runtime they sit on.

    Shallow embedding of
    - [leptos_reactive/src/signal_wrappers_write.rs] ([SignalSetter]),
    - [leptos_dom/src/html.rs] ([HtmlElement::attr], [HtmlElement::class],
      [IntoView for HtmlElement]) in its browser and server builds,
    - [meta/src/title.rs] ([TitleContext::as_string]),
    and a model of the reactive runtime (signals, memos, effects, scopes,
    batching) written from the runtime's specification. *)

From Stdlib Require Import String Ascii.
From stdpp Require Import base list gmap.
Import ListNotations.

Open Scope string_scope.

(* ================================================================== *)
(** ** [SignalSetter] (signal_wrappers_write.rs) *)
(* ================================================================== *)

Module SignalSetters.

(** Runtime handles are arena indices. *)
Record Scope := mkScope { scope_id : nat }.
Record WriteSignal := mkWriteSignal { ws_id : nat }.
Record RwSignal := mkRwSignal { rw_id : nat }.
Record StoredValue := mkStoredValue { sv_id : nat }.

(** [RwSignal::write_only]: the write half shares the signal's arena slot. *)
Definition write_only (s : RwSignal) : WriteSignal := mkWriteSignal (rw_id s).

Section WithRuntime.
(** [T]: the signal's value type; [St]: the reactive runtime state. *)
Variable T St : Type.
(** [WriteSignal::set], defined in the runtime. *)
Variable write_signal_set : WriteSignal -> T -> St -> St.
(** The boxed closure a [StoredValue<Box<dyn Fn(T)>>] holds in the
    runtime, if the value is still alive. *)
Variable stored_closure : StoredValue -> St -> option (T -> St -> St).

(** [enum SignalSetterTypes<T>] *)
Inductive SignalSetterTypes :=
| Write (s : WriteSignal)
| Mapped (cx : Scope) (s : StoredValue).

(** [struct SignalSetter<T>(SignalSetterTypes<T>)] *)
Inductive SignalSetter := mkSignalSetter (inner : SignalSetterTypes).

(** [StoredValue::with]: runs [f] on the stored value; panics ([None])
    when the value is gone. *)
Definition stored_with {A} (h : StoredValue) (f : (T -> St -> St) -> A)
    (st : St) : option A :=
  match stored_closure h st with
  | Some c => Some (f c)
  | None => None
  end.

(** [SignalSetter::set]; [None] is a panic. *)
Definition set (self : SignalSetter) (value : T) (st : St) : option St :=
  match self with
  | mkSignalSetter (Write s) => Some (write_signal_set s value st)
  | mkSignalSetter (Mapped _ s) => stored_with s (fun s => s value st) st
  end.

(** [impl From<WriteSignal<T>> for SignalSetter<T>] *)
Definition from_write (value : WriteSignal) : SignalSetter :=
  mkSignalSetter (Write value).

(** [impl From<RwSignal<T>> for SignalSetter<T>] *)
Definition from_rw (value : RwSignal) : SignalSetter :=
  mkSignalSetter (Write (write_only value)).
End WithRuntime.

(** [impl PartialEq for SignalSetterTypes<T>]. [self_addr] and
    [other_addr] are the addresses of the two values compared; the
    [StoredValue] field of [Mapped] lies [mapped_offset] bytes into its
    value, so [std::ptr::eq(l0, r0)] compares [self_addr + mapped_offset]
    with [other_addr + mapped_offset]. [write_signal_eqb] is
    [WriteSignal]'s [PartialEq]. *)
Definition setter_types_eq (write_signal_eqb : WriteSignal -> WriteSignal -> bool)
    (mapped_offset : nat) (self_addr : nat) (self : SignalSetterTypes)
    (other_addr : nat) (other : SignalSetterTypes) : bool :=
  match self, other with
  | Write l0, Write r0 => write_signal_eqb l0 r0
  | Mapped _ _, Mapped _ _ =>
      Nat.eqb (self_addr + mapped_offset) (other_addr + mapped_offset)
  | _, _ => false
  end.

(** [#[derive(PartialEq)]] on [SignalSetter<T>]: compares the single
    field, which sits at the setter's own address. *)
Definition signal_setter_eq (write_signal_eqb : WriteSignal -> WriteSignal -> bool)
    (mapped_offset : nat) (self_addr : nat) (self : SignalSetter)
    (other_addr : nat) (other : SignalSetter) : bool :=
  match self, other with
  | mkSignalSetter l, mkSignalSetter r =>
      setter_types_eq write_signal_eqb mapped_offset self_addr l other_addr r
  end.

End SignalSetters.

(* ================================================================== *)
(** ** [TitleContext] (meta/src/title.rs) *)
(* ================================================================== *)

Module Title.

(** [TextProp(Rc<dyn Fn() -> String>)] *)
Record TextProp := mkTextProp { text_fn : unit -> string }.
(** [Formatter(Box<dyn Fn(String) -> String>)] *)
Record Formatter := mkFormatter { format_fn : string -> string }.

(** [TitleContext] (the server build's fields; the browser build adds a
    handle on the [<title>] element, which [as_string] does not read). *)
Record TitleContext := mkTitleContext {
  formatter : option Formatter;
  text : option TextProp
}.

(** [TitleContext::as_string] *)
Definition as_string (self : TitleContext) : option string :=
  let title := option_map (fun f => text_fn f tt) (text self) in
  option_map
    (fun title =>
       match formatter self with
       | Some formatter => format_fn formatter title
       | None => title
       end)
    title.

(** The props a [<Title/>] stores in the shared [meta.title]
    ([*meta.title.formatter.borrow_mut() = Some(formatter)] and the same
    for [text]); the two builds do the same. *)
Definition title_set_props (formatter : option Formatter) (text : option TextProp)
    (c : TitleContext) : TitleContext :=
  let c := match formatter with
           | Some formatter => mkTitleContext (Some formatter) (Title.text c)
           | None => c
           end in
  match text with
  | Some text => mkTitleContext (Title.formatter c) (Some text)
  | None => c
  end.

(** [Title], server build: only the context changes. *)
Definition Title_ssr (formatter : option Formatter) (text : option TextProp)
    (meta_title : TitleContext) : TitleContext :=
  title_set_props formatter text meta_title.

(** The browser build's [TitleContext]: [el], the cached [<title>]
    handle, beside the fields [as_string] reads. *)
Record WebTitleContext := mkWebTitleContext {
  el : option nat;
  title_ctx : TitleContext
}.

(** The document as [Title] uses it: the [<title>] elements in document
    order, whether a [<head>] exists, the next fresh node, and the text
    content of nodes. *)
Record Document := mkDocument {
  title_els : list nat;
  has_head : bool;
  next_node : nat;
  text_content : gmap nat string
}.

(** [el.set_text_content(Some(text))] *)
Definition set_text_content (el : nat) (text : string) (doc : Document) : Document :=
  mkDocument (title_els doc) (has_head doc) (next_node doc)
    (<[el := text]> (text_content doc)).

(** The element [Title] writes to: the cached handle, else the first
    [<title>] ([query_selector("title")]), else a new [<title>] appended
    to the [<head>]; [None] is the [unwrap_throw] panic when there is no
    [<head>]. The handle is not stored back into [meta.title.el]. *)
Definition title_element (meta_title : WebTitleContext) (doc : Document)
    : option (nat * Document) :=
  match el meta_title with
  | Some el => Some (el, doc)
  | None =>
      match title_els doc with
      | title :: _ => Some (title, doc)
      | [] =>
          let el := next_node doc in
          if has_head doc
          then Some (el, mkDocument [el] (has_head doc) (S el) (text_content doc))
          else None
      end
  end.

(** [Title], browser build, up to the first run of its render effect,
    which writes [meta.title.as_string().unwrap_or_default()] into the
    element; [None] is a panic. *)
Definition Title_csr (formatter : option Formatter) (text : option TextProp)
    (meta_title : WebTitleContext) (doc : Document)
    : option (WebTitleContext * Document) :=
  let meta_title :=
    mkWebTitleContext (el meta_title) (title_set_props formatter text (title_ctx meta_title)) in
  match title_element meta_title doc with
  | None => None
  | Some (el, doc) =>
      let text := default "" (as_string (title_ctx meta_title)) in
      Some (meta_title, set_text_content el text doc)
  end.

End Title.

(* ================================================================== *)
(** ** [HtmlElement] builders (leptos_dom/src/html.rs) *)
(* ================================================================== *)

Module Html.

Section Builders.
(** [HydrationKey] and its [Display] impl (crate::hydration). *)
Variable HydrationKey : Type.
Variable hydration_key_fmt : HydrationKey -> string.
(** The reactive world a closure reads when it is called. *)
Variable Env : Type.

(** [macro_helpers::Attribute] *)
Inductive Attribute :=
| AttrString (s : string)
| AttrFn (cx : nat) (f : Env -> Attribute)
| AttrOption (cx : nat) (o : option string)
| AttrBool (b : bool).

(** [impl PartialEq for Attribute] (crate::macro_helpers). *)
Variable attribute_eqb : Attribute -> Attribute -> bool.

(** [Option<&Attribute> : PartialEq]: the comparison
    [old.as_ref() != Some(&new)] of the render effects. *)
Definition option_attribute_eqb (a b : option Attribute) : bool :=
  match a, b with
  | None, None => true
  | Some x, Some y => attribute_eqb x y
  | _, _ => false
  end.

(** [macro_helpers::Class] *)
Inductive Class :=
| ClassValue (b : bool)
| ClassFn (cx : nat) (f : Env -> bool).

(** *** Browser build *)

(** What the browser build does to the DOM node:
    [attribute_expression(el, name, value)] and
    [class_expression(class_list, name, value)]. *)
Inductive DomOp :=
| SetAttribute (name : string) (value : Attribute)
| ClassListSet (name : string) (value : bool).

(** [create_render_effect(cx, f)] with [f : FnMut(Option<S>) -> S]: the
    closure is kept and run at creation with [None], then on every
    rerun with [Some] of the value it returned the time before. The
    [Env] argument is the world the closure observes at that run. *)
Record RenderEffect (S : Type) := mkRenderEffect {
  re_body : option S -> Env -> S * list DomOp
}.
Arguments mkRenderEffect {S}.
Arguments re_body {S}.

(** DOM operations performed by the runs of a render effect, one run per
    environment of [envs], threading the returned value. *)
Fixpoint render_effect_runs {S} (re : RenderEffect S) (old : option S)
    (envs : list Env) : list DomOp :=
  match envs with
  | [] => []
  | env :: envs' =>
      let '(new, ops) := re_body re old env in
      (ops ++ render_effect_runs re (Some new) envs')%list
  end.

(** [HtmlElement::attr], browser build: the operations done at once on
    the element, and the render effect registered, if any. *)
Definition attr_web (name : string) (attr : Attribute)
    : list DomOp * option (RenderEffect Attribute) :=
  let value := attr in
  match value with
  | AttrFn cx f =>
      ([], Some (mkRenderEffect (fun old env =>
              let new := f env in
              (new,
               if negb (option_attribute_eqb old (Some new))
               then [SetAttribute name new] else []))))
  | _ => ([SetAttribute name value], None)
  end.

(** [HtmlElement::class], browser build. *)
Definition class_web (name : string) (class : Class)
    : list DomOp * option (RenderEffect bool) :=
  let value := class in
  match value with
  | ClassFn cx f =>
      ([], Some (mkRenderEffect (fun (old : option bool) env =>
              let new := f env in
              (new,
               if negb (match old with Some o => Bool.eqb o new | None => false end)
                  && (match old with Some _ => true | None => false end || new)
               then [ClassListSet name new] else []))))
  | ClassValue value => ([ClassListSet name value], None)
  end.

(** *** Server build *)

(** [ElementDescriptor]: name, voidness and hydration id of a tag. *)
Record ElementDescriptor := mkElementDescriptor {
  ed_name : string;
  ed_is_void : bool;
  ed_hydration_id : HydrationKey
}.

(** [View] and the server-side [Element] it wraps (crate root). *)
Inductive View :=
| ViewElement (e : Element)
| ViewText (s : string)
| ViewUnit
with Element :=
| mkElement (name : string) (is_void : bool) (id : HydrationKey)
    (attrs : list (string * string)) (children : list View)
    (prerendered : option string).

Definition element_attrs (e : Element) :=
  let '(mkElement _ _ _ a _ _) := e in a.
Definition element_children (e : Element) :=
  let '(mkElement _ _ _ _ c _) := e in c.
Definition element_prerendered (e : Element) :=
  let '(mkElement _ _ _ _ _ p) := e in p.
Definition element_id (e : Element) :=
  let '(mkElement _ _ i _ _ _) := e in i.
Definition element_name (e : Element) :=
  let '(mkElement n _ _ _ _ _) := e in n.

(** [Element::new(el)] on the server: the tag's name, voidness and
    hydration id, no attributes, no children, nothing prerendered. *)
Definition Element_new (el : ElementDescriptor) : Element :=
  mkElement (ed_name el) (ed_is_void el) (ed_hydration_id el) [] [] None.

(** [HtmlElement<El>], server build. *)
Record HtmlElement := mkHtmlElement {
  cx : nat;
  element : ElementDescriptor;
  attrs : list (string * string);
  children : list View;
  prerendered : option string
}.

Definition with_attrs (h : HtmlElement) (a : list (string * string)) :=
  mkHtmlElement (cx h) (element h) a (children h) (prerendered h).

(** [attrs.iter_mut().find(|(name, _)| name == "class")] followed by
    [*value = format!("{value} {name}")]: [None] when nothing matches. *)
Fixpoint append_to_class (name : string) (a : list (string * string))
    : option (list (string * string)) :=
  match a with
  | [] => None
  | (n, value) :: rest =>
      if String.eqb n "class"
      then Some ((n, value ++ " " ++ name) :: rest)
      else option_map (cons (n, value)) (append_to_class name rest)
  end.

(** [HtmlElement::class], server build; [env] is the world [f()] reads. *)
Definition class_ssr (env : Env) (this : HtmlElement) (name : string)
    (class : Class) : HtmlElement :=
  let include := match class with
                 | ClassValue include => include
                 | ClassFn _ f => f env
                 end in
  if include then
    match append_to_class name (attrs this) with
    | Some a => with_attrs this a
    | None => with_attrs this (attrs this ++ [("class", name)])%list
    end
  else this.

(** [IntoView::into_view for HtmlElement<El>], server build. *)
Definition into_view_ssr (self : HtmlElement) : View :=
  let id := ed_hydration_id (element self) in
  let '(mkElement n v i _ ch _) := Element_new (element self) in
  let hk := "_" ++ hydration_key_fmt id in
  let attrs' :=
    if existsb (fun '(name, _) => String.eqb name "id") (attrs self)
    then (attrs self ++ [("leptos-hk", hk)])%list
    else (attrs self ++ [("id", hk)])%list in
  ViewElement (mkElement n v i attrs' (ch ++ children self)%list (prerendered self)).

(** [while let Attribute::Fn(_, f) = attr { attr = f(); }] *)
Fixpoint resolve_attr (env : Env) (attr : Attribute) : Attribute :=
  match attr with
  | AttrFn _ f => resolve_attr env (f env)
  | _ => attr
  end.

(** [HtmlElement::attr], server build; [None] is the [unreachable!()]
    panic. *)
Definition attr_ssr (env : Env) (this : HtmlElement) (name : string)
    (attr : Attribute) : option HtmlElement :=
  let attr := resolve_attr env attr in
  match attr with
  | AttrString value => Some (with_attrs this (attrs this ++ [(name, value)])%list)
  | AttrBool include =>
      if include then Some (with_attrs this (attrs this ++ [(name, "")])%list)
      else Some this
  | AttrOption _ maybe =>
      match maybe with
      | Some value => Some (with_attrs this (attrs this ++ [(name, value)])%list)
      | None => Some this
      end
  | AttrFn _ _ => None
  end.

(** [HtmlElement::id], server build. *)
Definition id_ssr (self : HtmlElement) (id : string) : HtmlElement :=
  with_attrs self (attrs self ++ [("id", id)])%list.

(** [HtmlElement::child], server build ([child] already converted by
    [into_view]). *)
Definition child_ssr (self : HtmlElement) (child : View) : HtmlElement :=
  mkHtmlElement (cx self) (element self) (attrs self)
    (children self ++ [child])%list (prerendered self).

(** [HtmlElement::new], server build. *)
Definition HtmlElement_new (cx : nat) (element : ElementDescriptor) : HtmlElement :=
  mkHtmlElement cx element [] [] None.

(** [HtmlElement::from_html] *)
Definition from_html (cx : nat) (element : ElementDescriptor) (html : string)
    : HtmlElement :=
  mkHtmlElement cx element [] [] (Some html).

(** [Custom { name, id }] as an [ElementDescriptor]: [is_void] is the
    trait's default, [false]. *)
Definition Custom (name : string) (id : HydrationKey) : ElementDescriptor :=
  mkElementDescriptor name false id.

(** [html::custom(cx, el)] *)
Definition custom (cx : nat) (el : ElementDescriptor) : HtmlElement :=
  HtmlElement_new cx (Custom (ed_name el) (ed_hydration_id el)).

(** [HydrationKey::default()] *)
Variable hydration_key_default : HydrationKey.

(** [HtmlElement::inner_html], server build. *)
Definition inner_html_ssr (self : HtmlElement) (html : string) : HtmlElement :=
  let child := from_html (cx self) (Custom "inner-html" hydration_key_default) html in
  mkHtmlElement (cx self) (element self) (attrs self)
    [into_view_ssr child] (prerendered self).
End Builders.

Arguments AttrString {Env}.
Arguments AttrFn {Env}.
Arguments AttrOption {Env}.
Arguments AttrBool {Env}.
Arguments ClassValue {Env}.
Arguments ClassFn {Env}.
Arguments SetAttribute {Env}.
Arguments ClassListSet {Env}.
Arguments ViewElement {HydrationKey}.
Arguments mkElement {HydrationKey}.
Arguments mkHtmlElement {HydrationKey}.
Arguments cx {HydrationKey}.
Arguments element {HydrationKey}.
Arguments attrs {HydrationKey}.
Arguments children {HydrationKey}.
Arguments prerendered {HydrationKey}.
Arguments mkElementDescriptor {HydrationKey}.
Arguments ed_name {HydrationKey}.
Arguments ed_is_void {HydrationKey}.
Arguments ed_hydration_id {HydrationKey}.
Arguments render_effect_runs {Env S}.
Arguments attr_web {Env}.
Arguments class_web {Env}.
Arguments class_ssr {HydrationKey Env}.
Arguments into_view_ssr {HydrationKey}.
Arguments append_to_class : clear implicits.
Arguments with_attrs {HydrationKey}.
Arguments resolve_attr {Env}.
Arguments attr_ssr {HydrationKey Env}.
Arguments id_ssr {HydrationKey}.
Arguments child_ssr {HydrationKey}.
Arguments HtmlElement_new {HydrationKey}.
Arguments from_html {HydrationKey}.
Arguments Custom {HydrationKey}.
Arguments custom {HydrationKey}.
Arguments inner_html_ssr {HydrationKey}.

Section PropWeb.
(** [wasm_bindgen::JsValue], its [PartialEq] and [JsValue::UNDEFINED]. *)
Variable Env JsValue : Type.
Variable jsvalue_eqb : JsValue -> JsValue -> bool.
Variable UNDEFINED : JsValue.

(** [macro_helpers::Property] *)
Inductive Property :=
| PropValue (v : JsValue)
| PropFn (cx : nat) (f : Env -> JsValue).

(** [property_expression(el, name, value)] *)
Inductive PropOp := SetProperty (name : string) (value : JsValue).

(** The closure of a property render effect (see [RenderEffect]). *)
Definition PropEffect : Type := option JsValue -> Env -> JsValue * list PropOp.

(** [HtmlElement::prop], browser build: the operations done at once, and
    the render effect registered, if any. *)
Definition prop_web (name : string) (value : Property)
    : list PropOp * option PropEffect :=
  match value with
  | PropFn cx f =>
      ([], Some (fun old env =>
              let new := f env in
              (new,
               if negb (match old with Some o => jsvalue_eqb o new | None => false end)
                  && negb (match old with None => true | Some _ => false end
                           && jsvalue_eqb new UNDEFINED)
               then [SetProperty name new] else [])))
  | PropValue value => ([SetProperty name value], None)
  end.

(** The operations of the runs of a property render effect. *)
Fixpoint prop_effect_runs (re : PropEffect) (old : option JsValue) (envs : list Env)
    : list PropOp :=
  match envs with
  | [] => []
  | env :: envs' =>
      let '(new, ops) := re old env in
      (ops ++ prop_effect_runs re (Some new) envs')%list
  end.
End PropWeb.

Arguments PropValue {Env JsValue}.
Arguments PropFn {Env JsValue}.
Arguments SetProperty {JsValue}.
Arguments prop_web {Env JsValue}.
Arguments prop_effect_runs {Env JsValue}.

End Html.

(* ================================================================== *)
(** ** The reactive runtime *)
(* ================================================================== *)

Module Reactive.

(** Modelled from the spec: the reactive runtime of [leptos_reactive]
    (runtime, scopes, signals, memos, effects, [batch]), whose code is not
    part of the sources at hand, following the specification's sections 3
    to 5 and 7. Values are [nat]; closures are programs over the
    runtime's primitives (reading and writing nodes, nested batches). *)
Inductive Body :=
| Ret (v : nat)
| Read (n : nat) (k : nat -> Body)
| Write (n : nat) (v : nat) (k : Body)
| Batch (b : Body) (k : Body).

Inductive NodeKind := KSignal | KMemo | KEffect.

Definition NodeKind_eqb (a b : NodeKind) : bool :=
  match a, b with
  | KSignal, KSignal | KMemo, KMemo | KEffect, KEffect => true
  | _, _ => false
  end.

(** An arena node. [value] is [None] for a memo never computed; [subs]
    and [deps] are the weak subscriber and dependency sets. *)
Record Node := mkNode {
  kind : NodeKind;
  owner : nat;
  value : option nat;
  version : nat;
  subs : list nat;
  deps : list nat;
  dirty : bool;
  eq_skip : bool;
  body : Body;
  disposed : bool
}.

Record ScopeRec := mkScopeRec {
  parent : option nat;
  children : list nat;
  cleanups : list nat;
  owned : list nat;
  sdisposed : bool
}.

Inductive Diagnostic := UseAfterDispose (n : nat).

(** The runtime state: arena, scopes, observer stack, pending-effect queue
    (FIFO), batch depth, version clock, and what an outside observer sees:
    effect runs, reads, cleanups run, diagnostics. *)
Record Runtime := mkRuntime {
  nodes : gmap nat Node;
  scopes : gmap nat ScopeRec;
  observers : list nat;
  pending : list nat;
  depth : nat;
  clock : nat;
  next_id : nat;
  run_log : list nat;
  read_log : list (option nat * nat * nat);
  cleanup_log : list nat;
  diagnostics : list Diagnostic
}.

Inductive Error := InfiniteUpdateLoop (e : nat) | InvalidHandle (n : nat) | OutOfFuel.

Inductive Res (A : Type) := Ok (a : A) | Err (e : Error).
Arguments Ok {A}.
Arguments Err {A}.

Definition bind {A B} (r : Res A) (k : A -> Res B) : Res B :=
  match r with Ok a => k a | Err e => Err e end.

Notation "'let!' x ':=' m 'in' k" := (bind m (fun x => k))
  (at level 200, x name, m at level 100, k at level 200).

(** Bound on the reruns of one effect within one drain (cycle guard). *)
Definition max_reruns : nat := 100.

(** *** Record updates *)

Definition set_nodes (m : gmap nat Node) (st : Runtime) : Runtime :=
  mkRuntime m (scopes st) (observers st) (pending st) (depth st) (clock st)
    (next_id st) (run_log st) (read_log st) (cleanup_log st) (diagnostics st).
Definition set_scopes (m : gmap nat ScopeRec) (st : Runtime) : Runtime :=
  mkRuntime (nodes st) m (observers st) (pending st) (depth st) (clock st)
    (next_id st) (run_log st) (read_log st) (cleanup_log st) (diagnostics st).
Definition set_observers (o : list nat) (st : Runtime) : Runtime :=
  mkRuntime (nodes st) (scopes st) o (pending st) (depth st) (clock st)
    (next_id st) (run_log st) (read_log st) (cleanup_log st) (diagnostics st).
Definition set_pending (q : list nat) (st : Runtime) : Runtime :=
  mkRuntime (nodes st) (scopes st) (observers st) q (depth st) (clock st)
    (next_id st) (run_log st) (read_log st) (cleanup_log st) (diagnostics st).
Definition set_depth (d : nat) (st : Runtime) : Runtime :=
  mkRuntime (nodes st) (scopes st) (observers st) (pending st) d (clock st)
    (next_id st) (run_log st) (read_log st) (cleanup_log st) (diagnostics st).
Definition set_clock (c : nat) (st : Runtime) : Runtime :=
  mkRuntime (nodes st) (scopes st) (observers st) (pending st) (depth st) c
    (next_id st) (run_log st) (read_log st) (cleanup_log st) (diagnostics st).
Definition set_next_id (i : nat) (st : Runtime) : Runtime :=
  mkRuntime (nodes st) (scopes st) (observers st) (pending st) (depth st)
    (clock st) i (run_log st) (read_log st) (cleanup_log st) (diagnostics st).
Definition log_run (e : nat) (st : Runtime) : Runtime :=
  mkRuntime (nodes st) (scopes st) (observers st) (pending st) (depth st)
    (clock st) (next_id st) (run_log st ++ [e]) (read_log st)
    (cleanup_log st) (diagnostics st).
Definition log_read (r : option nat * nat * nat) (st : Runtime) : Runtime :=
  mkRuntime (nodes st) (scopes st) (observers st) (pending st) (depth st)
    (clock st) (next_id st) (run_log st) (read_log st ++ [r])
    (cleanup_log st) (diagnostics st).
Definition log_cleanups (cbs : list nat) (st : Runtime) : Runtime :=
  mkRuntime (nodes st) (scopes st) (observers st) (pending st) (depth st)
    (clock st) (next_id st) (run_log st) (read_log st)
    (cleanup_log st ++ cbs) (diagnostics st).
Definition log_diag (d : Diagnostic) (st : Runtime) : Runtime :=
  mkRuntime (nodes st) (scopes st) (observers st) (pending st) (depth st)
    (clock st) (next_id st) (run_log st) (read_log st) (cleanup_log st)
    (diagnostics st ++ [d]).

Definition with_value (v : option nat) (ver : nat) (nd : Node) : Node :=
  mkNode (kind nd) (owner nd) v ver (subs nd) (deps nd) (dirty nd)
    (eq_skip nd) (body nd) (disposed nd).
Definition with_subs (s : list nat) (nd : Node) : Node :=
  mkNode (kind nd) (owner nd) (value nd) (version nd) s (deps nd) (dirty nd)
    (eq_skip nd) (body nd) (disposed nd).
Definition with_deps (d : list nat) (nd : Node) : Node :=
  mkNode (kind nd) (owner nd) (value nd) (version nd) (subs nd) d (dirty nd)
    (eq_skip nd) (body nd) (disposed nd).
Definition with_dirty (b : bool) (nd : Node) : Node :=
  mkNode (kind nd) (owner nd) (value nd) (version nd) (subs nd) (deps nd) b
    (eq_skip nd) (body nd) (disposed nd).
Definition with_disposed (nd : Node) : Node :=
  mkNode (kind nd) (owner nd) (value nd) (version nd) [] [] (dirty nd)
    (eq_skip nd) (body nd) true.

Definition update_node (f : Node -> Node) (n : nat) (st : Runtime) : Runtime :=
  set_nodes (alter f n (nodes st)) st.
Definition update_scope (f : ScopeRec -> ScopeRec) (s : nat) (st : Runtime)
    : Runtime :=
  set_scopes (alter f s (scopes st)) st.

(** Set operations on handle lists: insertion keeps the first occurrence. *)
Definition insert_unique (x : nat) (l : list nat) : list nat :=
  if existsb (Nat.eqb x) l then l else l ++ [x].
Definition remove_id (x : nat) (l : list nat) : list nat :=
  List.filter (fun y => negb (Nat.eqb x y)) l.

Definition option_nat_eqb (a b : option nat) : bool :=
  match a, b with
  | Some x, Some y => Nat.eqb x y
  | None, None => true
  | _, _ => false
  end.

(** *** Graph bookkeeping *)

(** Marking one subscriber after a write: a memo becomes dirty (it is not
    recomputed), an effect is enqueued unless already pending. *)
Definition mark_one (st : Runtime) (s : nat) : Runtime :=
  match nodes st !! s with
  | Some nd =>
      match kind nd with
      | KMemo => update_node (with_dirty true) s st
      | KEffect =>
          if existsb (Nat.eqb s) (pending st) then st
          else set_pending (pending st ++ [s]) st
      | KSignal => st
      end
  | None => st
  end.

Definition mark_subscribers (l : list nat) (st : Runtime) : Runtime :=
  fold_left mark_one l st.

(** Recording the edge [n -> observer] when an observer is active. *)
Definition track (n : nat) (st : Runtime) : Runtime :=
  match observers st with
  | o :: _ =>
      update_node (fun nd => with_deps (insert_unique n (deps nd)) nd) o
        (update_node (fun nd => with_subs (insert_unique o (subs nd)) nd) n st)
  | [] => st
  end.

(** Dropping the back-edges of [o]'s dependency set, and the set itself. *)
Definition clear_deps (o : nat) (st : Runtime) : Runtime :=
  match nodes st !! o with
  | Some nd =>
      update_node (with_deps []) o
        (fold_left (fun st d =>
           update_node (fun x => with_subs (remove_id o (subs x)) x) d st)
           (deps nd) st)
  | None => st
  end.

Definition count (e : nat) (l : list nat) : nat :=
  length (List.filter (Nat.eqb e) l).

(** *** Reading, writing, propagation *)

Fixpoint run_body (fuel : nat) (b : Body) (st : Runtime) {struct fuel}
    : Res (nat * Runtime) :=
  match fuel with
  | 0 => Err OutOfFuel
  | S f =>
      match b with
      | Ret v => Ok (v, st)
      | Read n k =>
          let! r := read f n st in run_body f (k (fst r)) (snd r)
      | Write n v k =>
          let! st1 := write f n v st in run_body f k st1
      | Batch b k =>
          let! r := run_body f b (set_depth (S (depth st)) st) in
          let st3 := set_depth (pred (depth (snd r))) (snd r) in
          let! st4 := (if Nat.eqb (depth st3) 0 then flush f st3 else Ok st3) in
          run_body f k st4
      end
  end
with read (fuel : nat) (n : nat) (st : Runtime) {struct fuel}
    : Res (nat * Runtime) :=
  match fuel with
  | 0 => Err OutOfFuel
  | S f =>
      match nodes st !! n with
      | None => Err (InvalidHandle n)
      | Some nd =>
          if disposed nd
          then Ok (default 0 (value nd), log_diag (UseAfterDispose n) st)
          else
            let! st1 := (match kind nd with
                         | KMemo => if dirty nd then recompute_memo f n st else Ok st
                         | KSignal => Ok st
                         | KEffect => Err (InvalidHandle n)
                         end) in
            let v := match nodes st1 !! n with
                     | Some nd' => default 0 (value nd')
                     | None => 0
                     end in
            Ok (v, log_read (head (observers st1), n, v) (track n st1))
      end
  end
with write (fuel : nat) (n : nat) (v : nat) (st : Runtime) {struct fuel}
    : Res Runtime :=
  match fuel with
  | 0 => Err OutOfFuel
  | S f =>
      match nodes st !! n with
      | None => Err (InvalidHandle n)
      | Some nd =>
          if disposed nd then Ok (log_diag (UseAfterDispose n) st)
          else if negb (NodeKind_eqb (kind nd) KSignal) then Err (InvalidHandle n)
          else if eq_skip nd && option_nat_eqb (value nd) (Some v) then Ok st
          else
            let c := S (clock st) in
            let st1 := mark_subscribers (subs nd)
                         (set_clock c (update_node (with_value (Some v) c) n st)) in
            if Nat.eqb (depth st1) 0 then flush f st1 else Ok st1
      end
  end
with flush (fuel : nat) (st : Runtime) {struct fuel} : Res Runtime :=
  match fuel with
  | 0 => Err OutOfFuel
  | S f =>
      let! st1 := drain f [] (set_depth (S (depth st)) st) in
      Ok (set_depth (pred (depth st1)) st1)
  end
with drain (fuel : nat) (counts : list nat) (st : Runtime) {struct fuel}
    : Res Runtime :=
  match fuel with
  | 0 => Err OutOfFuel
  | S f =>
      match pending st with
      | [] => Ok st
      | e :: q =>
          let st1 := set_pending q st in
          match nodes st1 !! e with
          | Some nd =>
              if disposed nd || negb (NodeKind_eqb (kind nd) KEffect)
              then drain f counts st1
              else if Nat.ltb max_reruns (S (count e counts))
              then Err (InfiniteUpdateLoop e)
              else let! st2 := run_effect f e st1 in drain f (e :: counts) st2
          | None => drain f counts st1
          end
      end
  end
with run_effect (fuel : nat) (e : nat) (st : Runtime) {struct fuel}
    : Res Runtime :=
  match fuel with
  | 0 => Err OutOfFuel
  | S f =>
      match nodes st !! e with
      | None => Err (InvalidHandle e)
      | Some nd =>
          let st1 := set_observers (e :: observers st) (clear_deps e (log_run e st)) in
          let! r := run_body f (body nd) st1 in
          Ok (set_observers (tail (observers (snd r))) (snd r))
      end
  end
with recompute_memo (fuel : nat) (n : nat) (st : Runtime) {struct fuel}
    : Res Runtime :=
  match fuel with
  | 0 => Err OutOfFuel
  | S f =>
      match nodes st !! n with
      | None => Err (InvalidHandle n)
      | Some nd =>
          let st1 := set_observers (n :: observers st) (clear_deps n st) in
          let! r := run_body f (body nd) st1 in
          memo_commit f n (fst r) (set_observers (tail (observers (snd r))) (snd r))
      end
  end
with memo_commit (fuel : nat) (n : nat) (v : nat) (st : Runtime) {struct fuel}
    : Res Runtime :=
  match fuel with
  | 0 => Err OutOfFuel
  | S f =>
      match nodes st !! n with
      | None => Err (InvalidHandle n)
      | Some nd =>
          if option_nat_eqb (value nd) (Some v)
          then Ok (update_node (with_dirty false) n st)
          else
            let c := S (clock st) in
            let st1 := mark_subscribers (subs nd)
                         (set_clock c (update_node
                            (fun nd => with_dirty false (with_value (Some v) c nd))
                            n st)) in
            if Nat.eqb (depth st1) 0 then flush f st1 else Ok st1
      end
  end.

(** [batch(closure)] *)
Definition batch (fuel : nat) (b : Body) (st : Runtime) : Res Runtime :=
  let! r := run_body fuel (Batch b (Ret 0)) st in Ok (snd r).

(** *** Scopes and node creation *)

Definition empty_runtime : Runtime :=
  mkRuntime ∅ ∅ [] [] 0 0 0 [] [] [] [].

Definition with_children (c : list nat) (sc : ScopeRec) : ScopeRec :=
  mkScopeRec (parent sc) c (cleanups sc) (owned sc) (sdisposed sc).
Definition with_cleanups (c : list nat) (sc : ScopeRec) : ScopeRec :=
  mkScopeRec (parent sc) (children sc) c (owned sc) (sdisposed sc).
Definition with_owned (o : list nat) (sc : ScopeRec) : ScopeRec :=
  mkScopeRec (parent sc) (children sc) (cleanups sc) o (sdisposed sc).
Definition with_sdisposed (sc : ScopeRec) : ScopeRec :=
  mkScopeRec (parent sc) (children sc) (cleanups sc) (owned sc) true.

Definition create_scope (par : option nat) (st : Runtime) : nat * Runtime :=
  let id := next_id st in
  let st1 := set_next_id (S id)
               (set_scopes (<[id := mkScopeRec par [] [] [] false]> (scopes st)) st) in
  (id, match par with
       | Some p => update_scope (fun sc => with_children (children sc ++ [id]) sc) p st1
       | None => st1
       end).

Definition add_node (scope : nat) (nd : Node) (st : Runtime) : nat * Runtime :=
  let id := next_id st in
  (id, update_scope (fun sc => with_owned (owned sc ++ [id]) sc) scope
         (set_next_id (S id) (set_nodes (<[id := nd]> (nodes st)) st))).

Definition create_signal (scope init : nat) (skip : bool) (st : Runtime)
    : nat * Runtime :=
  add_node scope (mkNode KSignal scope (Some init) 0 [] [] false skip (Ret 0) false) st.

Definition create_memo (scope : nat) (b : Body) (st : Runtime) : nat * Runtime :=
  add_node scope (mkNode KMemo scope None 0 [] [] true false b false) st.

(** Creation runs the effect's closure once, tracking its reads. *)
Definition create_effect (fuel scope : nat) (b : Body) (st : Runtime)
    : Res (nat * Runtime) :=
  let '(id, st1) := add_node scope (mkNode KEffect scope None 0 [] [] false false b false) st in
  let! st2 := run_effect fuel id st1 in Ok (id, st2).

Definition on_cleanup (scope cb : nat) (st : Runtime) : Runtime :=
  update_scope (fun sc => with_cleanups (cleanups sc ++ [cb]) sc) scope st.

(** Invalidating a node: it leaves every subscriber and dependency set. *)
Definition invalidate_node (st : Runtime) (n : nat) : Runtime :=
  match nodes st !! n with
  | Some nd =>
      let st1 := fold_left (fun st d =>
                   update_node (fun x => with_subs (remove_id n (subs x)) x) d st)
                   (deps nd) st in
      let st2 := fold_left (fun st s =>
                   update_node (fun x => with_deps (remove_id n (deps x)) x) s st)
                   (subs nd) st1 in
      update_node with_disposed n st2
  | None => st
  end.

(** Disposing the scopes of [l] one after the other. *)
Fixpoint dispose_each (disp : nat -> Runtime -> Res Runtime) (l : list nat)
    (st : Runtime) : Res Runtime :=
  match l with
  | [] => Ok st
  | c :: l' => let! st' := disp c st in dispose_each disp l' st'
  end.

(** [dispose(scope)]: children first (depth-first, in creation order),
    then the scope's own cleanups in reverse registration order, then its
    nodes. A disposed scope is left as it is. *)
Fixpoint dispose (fuel : nat) (s : nat) (st : Runtime) {struct fuel} : Res Runtime :=
  match fuel with
  | 0 => Err OutOfFuel
  | S f =>
      match scopes st !! s with
      | None => Ok st
      | Some sc =>
          if sdisposed sc then Ok st
          else
            let st1 := update_scope with_sdisposed s st in
            let! st2 := dispose_each (dispose f) (children sc) st1 in
            Ok (fold_left invalidate_node (owned sc)
                  (log_cleanups (rev (cleanups sc)) st2))
      end
  end.

(** *** Programs against the runtime's API *)

(** One call of the runtime's API, with the handles it takes. *)
Inductive Op :=
| OpRead (n : nat)
| OpWrite (n v : nat)
| OpBatch (b : Body)
| OpScope (par : option nat)
| OpSignal (scope init : nat) (skip : bool)
| OpMemo (scope : nat) (b : Body)
| OpEffect (scope : nat) (b : Body)
| OpCleanup (scope cb : nat)
| OpDispose (s : nat).

Definition run_op (fuel : nat) (op : Op) (st : Runtime) : Res Runtime :=
  match op with
  | OpRead n => let! r := read fuel n st in Ok (snd r)
  | OpWrite n v => write fuel n v st
  | OpBatch b => batch fuel b st
  | OpScope par => Ok (snd (create_scope par st))
  | OpSignal scope init skip => Ok (snd (create_signal scope init skip st))
  | OpMemo scope b => Ok (snd (create_memo scope b st))
  | OpEffect scope b => let! r := create_effect fuel scope b st in Ok (snd r)
  | OpCleanup scope cb => Ok (on_cleanup scope cb st)
  | OpDispose s => dispose fuel s st
  end.

(** The calls of [ops], one after the other, stopping at the first error. *)
Fixpoint run_ops (fuel : nat) (ops : list Op) (st : Runtime) : Res Runtime :=
  match ops with
  | [] => Ok st
  | op :: ops' => let! st' := run_op fuel op st in run_ops fuel ops' st'
  end.

End Reactive.

(* ================================================================== *)
(** ** Reference behaviours the claims are stated against *)
(* ================================================================== *)

Module Expected.
Import Html Reactive.

(** A render effect that patches an attribute when its value changes:
    the first value is written, then each value that differs from the
    value before it. *)
Definition attribute_writes_on_change {Env} (eqb : Attribute Env -> Attribute Env -> bool)
    (name : string) (vs : list (Attribute Env)) : list (DomOp Env) :=
  match vs with
  | [] => []
  | v0 :: rest =>
      SetAttribute name v0
      :: flat_map (fun pn => if eqb (fst pn) (snd pn) then []
                             else [SetAttribute name (snd pn)])
           (combine vs rest)
  end.

(** A class toggle: the first value is applied only when it is [true],
    then each value that differs from the value before it. *)
Definition class_writes_on_change {Env} (name : string) (vs : list bool)
    : list (DomOp Env) :=
  match vs with
  | [] => []
  | v0 :: rest =>
      (if v0 then [ClassListSet name true] else [])
      ++ flat_map (fun pn => if Bool.eqb (fst pn) (snd pn) then []
                             else [ClassListSet name (snd pn)])
           (combine vs rest)
  end.

(** Enough fuel for every scenario below. *)
Definition fuel : nat := 1000.

(** The glitch scenario: a root scope, Signal [A] (initial 2), Memo [M]
    computing [A % 2], Effect [E] reading [M]. Handles: root 0, A 1, M 2,
    E 3. *)
Definition glitch_setup : Res Runtime :=
  let '(root, st0) := create_scope None empty_runtime in
  let '(a, st1) := create_signal root 2 false st0 in
  let '(m, st2) := create_memo root (Read a (fun x => Ret (Nat.modulo x 2))) st1 in
  let! r := create_effect fuel root (Read m (fun x => Ret x)) st2 in
  Ok (snd r).

(** A root scope with one equality-skipping signal (handle 1, value 5)
    read by one effect (handle 2). *)
Definition skip_setup : Res Runtime :=
  let '(root, st0) := create_scope None empty_runtime in
  let '(a, st1) := create_signal root 5 true st0 in
  let! r := create_effect fuel root (Read a (fun x => Ret x)) st1 in
  Ok (snd r).

(** The glitch scenario run: setup, then [write(A, 4)], then an
    untracked read of [M]. *)
Definition glitch_run : Res (Runtime * Runtime * nat * Runtime) :=
  let! st1 := glitch_setup in
  let! st2 := write fuel 1 4 st1 in
  let! r := read fuel 2 st2 in
  Ok (st1, st2, fst r, snd r).

Definition skip_state : Runtime :=
  match skip_setup with Ok st => st | Err _ => empty_runtime end.

Definition skip_node : Node :=
  match nodes skip_state !! 1 with
  | Some nd => nd
  | None => mkNode KSignal 0 None 0 [] [] false false (Ret 0) false
  end.

(** *** Scope trees *)

(** The scopes [dispose] reaches from [s] and finds live, in preorder,
    within depth [f]: a scope disposed already is skipped, and so is
    its subtree. *)
Fixpoint live_scopes (f s : nat) (st : Runtime) : list nat :=
  match f with
  | 0 => []
  | S f' =>
      match scopes st !! s with
      | None => []
      | Some sc =>
          if sdisposed sc then []
          else s :: flat_map (fun c => live_scopes f' c st) (children sc)
      end
  end.

(** The cleanup callbacks of those scopes: child subtrees first (in
    creation order), then the scope's own callbacks, last registered
    first. *)
Fixpoint live_cleanups (f s : nat) (st : Runtime) : list nat :=
  match f with
  | 0 => []
  | S f' =>
      match scopes st !! s with
      | None => []
      | Some sc =>
          if sdisposed sc then []
          else flat_map (fun c => live_cleanups f' c st) (children sc)
               ++ rev (cleanups sc)
      end
  end.

(** Depth [f] covers the live part of the tree rooted at [s]. *)
Fixpoint fits (f s : nat) (st : Runtime) : Prop :=
  match f with
  | 0 => False
  | S f' =>
      match scopes st !! s with
      | None => True
      | Some sc =>
          if sdisposed sc then True
          else Forall (fun c => fits f' c st) (children sc)
      end
  end.

(** The nodes owned by those scopes. *)
Definition live_nodes (f s : nat) (st : Runtime) : list nat :=
  flat_map (fun x => match scopes st !! x with Some sc => owned sc | None => [] end)
    (live_scopes f s st).

(** The next handle is above every node: node creation never overwrites
    a node. *)
Definition fresh (st : Runtime) : Prop :=
  forall k, next_id st <= k -> nodes st !! k = None.

(** The part of a scope that disposal leaves as it is. *)
Definition shape (sc : ScopeRec) : list nat * list nat * list nat :=
  (children sc, cleanups sc, owned sc).

Definition same_shape (st st' : Runtime) : Prop :=
  forall x, option_map shape (scopes st !! x) = option_map shape (scopes st' !! x).

(** No node disappears, and a disposed node stays disposed. *)
Definition nodes_mono (st st' : Runtime) : Prop :=
  forall n nd, nodes st !! n = Some nd ->
  exists nd', nodes st' !! n = Some nd' /\ (disposed nd = true -> disposed nd' = true).

(** [nodes_mono], and no node appears; the next handle is the same. *)
Definition keeps (st st' : Runtime) : Prop :=
  nodes_mono st st'
  /\ (forall k, nodes st !! k = None -> nodes st' !! k = None)
  /\ next_id st' = next_id st.

(** What disposing the trees of [tree] (with cleanup order [cl] and
    owned nodes [nodesl]) does, from [st] to [st']. *)
Definition dispose_post (cl tree nodesl : list nat) (st st' : Runtime) : Prop :=
  cleanup_log st' = app (cleanup_log st) cl
  /\ run_log st' = run_log st
  /\ same_shape st st'
  /\ (forall x, ~ In x tree -> scopes st' !! x = scopes st !! x)
  /\ (forall x, In x tree -> exists sc, scopes st' !! x = Some sc /\ sdisposed sc = true)
  /\ nodes_mono st st'
  /\ (forall n nd, In n nodesl -> nodes st !! n = Some nd ->
        exists nd', nodes st' !! n = Some nd' /\ disposed nd' = true).

(** A root scope [S] (handle 0) registers callback 1, creates child
    scope [C] (handle 1), which registers callback 2; then [S]
    registers callback 3. Registration order: 1, 2, 3. *)
Definition cleanup_setup : Runtime :=
  let '(root, st0) := create_scope None empty_runtime in
  let st1 := on_cleanup root 1 st0 in
  let '(child, st2) := create_scope (Some root) st1 in
  let st3 := on_cleanup child 2 st2 in
  on_cleanup root 3 st3.

(** [cleanup_setup] after disposing the child scope [C] alone. *)
Definition cleanup_child_disposed : Runtime :=
  match dispose fuel 1 cleanup_setup with Ok st => st | Err _ => empty_runtime end.

(** *** Batches *)

(** A batch closure that only writes signals, possibly in nested
    batches. *)
Inductive writes_only : Body -> Prop :=
| wo_ret v : writes_only (Ret v)
| wo_write n v k : writes_only k -> writes_only (Write n v k)
| wo_batch b k : writes_only b -> writes_only k -> writes_only (Batch b k).

(** The writes of a closure, in program order. *)
Fixpoint written (b : Body) : list (nat * nat) :=
  match b with
  | Ret _ => []
  | Read _ _ => []
  | Write n v k => (n, v) :: written k
  | Batch b k => app (written b) (written k)
  end.

(** What [read] returns for node [n]. *)
Definition value_of (st : Runtime) (n : nat) : nat :=
  match nodes st !! n with Some nd => default 0 (value nd) | None => 0 end.

Definition is_effect (st : Runtime) (e : nat) : bool :=
  match nodes st !! e with Some nd => NodeKind_eqb (kind nd) KEffect | None => false end.

Definition subs_of (st : Runtime) (n : nat) : list nat :=
  match nodes st !! n with Some nd => subs nd | None => [] end.

(** Appending the effects of [l] not yet in the queue [q]. *)
Definition enqueue_subs (st : Runtime) (l q : list nat) : list nat :=
  fold_left (fun q e => if is_effect st e
                        then if existsb (Nat.eqb e) q then q else app q [e]
                        else q) l q.

(** The queue a sequence of writes builds: the effects subscribed to the
    written signals, each once, in order of first enqueueing. *)
Definition enqueue_all (st : Runtime) (ws : list (nat * nat)) (q : list nat) : list nat :=
  fold_left (fun q nv => enqueue_subs st (subs_of st (fst nv)) q) ws q.

(** The last value written to [n] by [ws], [d] if none. *)
Definition last_write (ws : list (nat * nat)) (n d : nat) : nat :=
  fold_left (fun d nv => if Nat.eqb (fst nv) n then snd nv else d) ws d.

(** A live signal without equality-skip. *)
Definition signal_ok (st : Runtime) (n : nat) : Prop :=
  exists nd, nodes st !! n = Some nd /\ kind nd = KSignal
             /\ disposed nd = false /\ eq_skip nd = false.

Definition signal_kind (st : Runtime) (n : nat) : Prop :=
  exists nd, nodes st !! n = Some nd /\ kind nd = KSignal.

(** An effect closure that only reads signals. *)
Inductive reads_signals (st : Runtime) : Body -> Prop :=
| rs_ret v : reads_signals st (Ret v)
| rs_read n k : signal_kind st n -> (forall v, reads_signals st (k v)) ->
                reads_signals st (Read n k).

(** A live effect whose closure only reads signals. *)
Definition effect_ok (st : Runtime) (e : nat) : Prop :=
  exists nd, nodes st !! e = Some nd /\ kind nd = KEffect /\ disposed nd = false
             /\ reads_signals st (body nd).

(** What a node keeps through writes, reads and reruns. *)
Definition frame (nd : Node) : NodeKind * bool * Body * bool :=
  (kind nd, eq_skip nd, body nd, disposed nd).

(** Two runtimes agree on the projection [P] of every node. *)
Definition agree {A} (P : Node -> A) (st st' : Runtime) : Prop :=
  forall n, option_map P (nodes st !! n) = option_map P (nodes st' !! n).

(** A step that leaves the observable logs and the batch depth alone. *)
Definition same_logs (st st' : Runtime) : Prop :=
  run_log st' = run_log st /\ read_log st' = read_log st /\ depth st' = depth st.

(** The reads logged from [st] to [st'] each returned the value the node
    held in [st]. *)
Definition reads_observe (st st' : Runtime) : Prop :=
  exists R, read_log st' = app (read_log st) R
            /\ Forall (fun r => snd r = value_of st (snd (fst r))) R.

(** A step that only reads signals. *)
Definition reading_step (st st' : Runtime) : Prop :=
  agree frame st st' /\ agree value st st' /\ pending st' = pending st
  /\ run_log st' = run_log st /\ depth st' = depth st /\ reads_observe st st'.

(** Signals [a] (1) and [b] (2), both 0; effect [Eb] (3) reads [b];
    effect [Ea] (4) reads [a] and writes it to [b]. *)
Definition chain_setup : Res Runtime :=
  let '(root, st0) := create_scope None empty_runtime in
  let '(a, st1) := create_signal root 0 false st0 in
  let '(b, st2) := create_signal root 0 false st1 in
  let! r3 := create_effect fuel root (Read b (fun x => Ret x)) st2 in
  let! r4 := create_effect fuel root (Read a (fun x => Write b x (Ret 0))) (snd r3) in
  Ok (snd r4).

(** [batch(|| { write(b, 1); write(a, 2); })] after [chain_setup]: the
    runtime before and after. *)
Definition chain_run : Res (Runtime * Runtime) :=
  let! st := chain_setup in
  let! st' := batch fuel (Write 2 1 (Write 1 2 (Ret 0))) st in
  Ok (st, st').

(** Signal [a] (1, value 0, equality-skip) read by effect 2; then
    [batch(|| write(a, 0))]. *)
Definition skip_batch_run : Res (Runtime * Runtime) :=
  let '(root, st0) := create_scope None empty_runtime in
  let '(a, st1) := create_signal root 0 true st0 in
  let! r := create_effect fuel root (Read a (fun x => Ret x)) st1 in
  let! st' := batch fuel (Write a 0 (Ret 0)) (snd r) in
  Ok (snd r, st').

(** Signal [a] (1, value 0) read by effects 2 and 3; the batch closure of
    the specification's example, with an inner nested batch. *)
Definition example_batch : Body :=
  Batch (Write 1 1 (Ret 0)) (Write 1 2 (Ret 0)).

Definition example_state : Runtime :=
  match (let '(root, st0) := create_scope None empty_runtime in
         let '(a, st1) := create_signal root 0 false st0 in
         let! r2 := create_effect fuel root (Read a (fun x => Ret x)) st1 in
         let! r3 := create_effect fuel root (Read a (fun x => Ret (x + 1))) (snd r2) in
         Ok (snd r3)) with
  | Ok st => st
  | Err _ => empty_runtime
  end.

End Expected.

(* ================================================================== *)
(** * Properties *)
(* ================================================================== *)

(* ------------------------------------------------------------------ *)
(** ** Signal setters *)

Module SetterProps.
Import SignalSetters.

(** C1: [SignalSetter] has exactly the two cases [Write] and [Mapped];
    [set] on [Write s] is [s.set(v)], on [Mapped] it calls the stored
    closure with [v] (a panic if the stored value is gone), and an
    [RwSignal] converts to [Write] over its write-only half. *)
Theorem signal_setter_dispatch (T St : Type)
    (write_signal_set : WriteSignal -> T -> St -> St)
    (stored_closure : StoredValue -> St -> option (T -> St -> St)) :
  (forall ss : SignalSetter,
     (exists w, ss = mkSignalSetter (Write w))
     \/ (exists cx h, ss = mkSignalSetter (Mapped cx h)))
  /\ (forall w cx h, Write w <> Mapped cx h)
  /\ (forall w v st,
        set T St write_signal_set stored_closure (mkSignalSetter (Write w)) v st
        = Some (write_signal_set w v st))
  /\ (forall cx h v st,
        set T St write_signal_set stored_closure (mkSignalSetter (Mapped cx h)) v st
        = match stored_closure h st with
          | Some f => Some (f v st)
          | None => None
          end)
  /\ (forall rw, from_rw rw = mkSignalSetter (Write (write_only rw))).
Proof.
  split; [| split; [| split; [| split]]].
  - intros [[w | cx h]]; [left; eauto | right; eauto].
  - discriminate.
  - reflexivity.
  - intros cx h v st. unfold set, stored_with. destruct (stored_closure h st); reflexivity.
  - reflexivity.
Qed.

End SetterProps.

(* ------------------------------------------------------------------ *)
(** ** Document title *)

Module TitleProps.
Import Title.

(** C9: [as_string] is [None] exactly when no text is set; with text it
    is the text, passed through the formatter when one is set; a
    formatter without text gives [None]. *)
Theorem as_string_spec :
  (forall c, as_string c = None <-> text c = None)
  /\ (forall t g, as_string (mkTitleContext (Some g) (Some t))
                  = Some (format_fn g (text_fn t tt)))
  /\ (forall t, as_string (mkTitleContext None (Some t)) = Some (text_fn t tt))
  /\ (forall g, as_string (mkTitleContext (Some g) None) = None).
Proof.
  split; [| split; [| split]]; try reflexivity.
  intros [[g |] [t |]]; simpl; split; intro H; try discriminate; reflexivity.
Qed.

End TitleProps.

(* ------------------------------------------------------------------ *)
(** ** Server-side element building *)

Module SsrProps.
Import Html.

Lemma append_to_class_none (name : string) (a : list (string * string)) :
  append_to_class name a = None <-> ~ In "class" (map fst a).
Proof.
  induction a as [| [n v] rest IH]; simpl.
  - tauto.
  - destruct (String.eqb_spec n "class") as [E | E].
    + subst. split; [discriminate | tauto].
    + destruct (append_to_class name rest); simpl; split; intro H.
      * discriminate.
      * assert (Some l = None) by (apply IH; tauto). discriminate.
      * intros [H' | H']; [congruence | apply IH; assumption].
      * reflexivity.
Qed.

Lemma append_to_class_first (name : string) pre v post :
  ~ In "class" (map fst pre) ->
  append_to_class name (app pre (("class", v) :: post))
  = Some (app pre (("class", v ++ " " ++ name) :: post)).
Proof.
  induction pre as [| [n w] pre IH]; simpl; intro H.
  - reflexivity.
  - destruct (String.eqb_spec n "class") as [E | E].
    + exfalso. apply H. left. exact E.
    + rewrite IH by tauto. reflexivity.
Qed.

Lemma existsb_name_in (key : string) (a : list (string * string)) :
  existsb (fun '(name, _) => String.eqb name key) a = true <-> In key (map fst a).
Proof.
  induction a as [| [n v] rest IH]; simpl.
  - split; [discriminate | tauto].
  - rewrite orb_true_iff, IH, String.eqb_eq. split; intros [H | H]; auto.
Qed.

(** C10: on the server, [class(name, value)] leaves the element as it is
    when the value is [false]; when it is [true] it appends [" " ++ name]
    to the value of the first ["class"] attribute if there is one, and
    otherwise pushes [("class", name)]. Nothing but the attributes
    changes. *)
Theorem class_ssr_spec {HK Env : Type} (env : Env) (h : HtmlElement HK)
    (name : string) (class : Class Env) :
  let include := match class with
                 | ClassValue b => b
                 | ClassFn _ f => f env
                 end in
  (include = false -> class_ssr env h name class = h)
  /\ (include = true ->
      forall pre v post,
        attrs h = app pre (("class", v) :: post) ->
        ~ In "class" (map fst pre) ->
        attrs (class_ssr env h name class)
        = app pre (("class", v ++ " " ++ name) :: post))
  /\ (include = true ->
      ~ In "class" (map fst (attrs h)) ->
      attrs (class_ssr env h name class) = app (attrs h) [("class", name)])
  /\ cx (class_ssr env h name class) = cx h
  /\ element (class_ssr env h name class) = element h
  /\ children (class_ssr env h name class) = children h
  /\ prerendered (class_ssr env h name class) = prerendered h.
Proof.
  simpl. unfold class_ssr.
  set (inc := match class with ClassValue b => b | ClassFn _ f => f env end).
  split; [| split; [| split]].
  - intro H. rewrite H. reflexivity.
  - intros H pre v post Ha Hpre. rewrite H, Ha, append_to_class_first by exact Hpre.
    reflexivity.
  - intros H Hn. rewrite H.
    apply append_to_class_none with (name := name) in Hn. rewrite Hn. reflexivity.
  - destruct inc; [destruct (append_to_class name (attrs h)) |]; simpl;
      repeat split; reflexivity.
Qed.

(** C8: on the server, [into_view] appends exactly one hydration-key
    attribute, [("id", "_{key}")] when no ["id"] attribute is present and
    [("leptos-hk", "_{key}")] otherwise, and carries over attributes,
    children and prerendered content. *)
Theorem into_view_ssr_spec {HK : Type} (hydration_key_fmt : HK -> string)
    (h : HtmlElement HK) :
  exists key_attr,
    into_view_ssr hydration_key_fmt h
    = ViewElement (mkElement (ed_name (element h)) (ed_is_void (element h))
                     (ed_hydration_id (element h))
                     (app (attrs h)
                        [(key_attr, "_" ++ hydration_key_fmt (ed_hydration_id (element h)))])
                     (children h) (prerendered h))
    /\ ((~ In "id" (map fst (attrs h)) /\ key_attr = "id")
        \/ (In "id" (map fst (attrs h)) /\ key_attr = "leptos-hk")).
Proof.
  unfold into_view_ssr, Element_new. simpl.
  destruct (existsb (fun '(name, _) => String.eqb name "id") (attrs h)) eqn:E.
  - exists "leptos-hk". split; [reflexivity |].
    right. split; [apply existsb_name_in; exact E | reflexivity].
  - exists "id". split; [reflexivity |].
    left. split; [| reflexivity].
    intro Hin. apply existsb_name_in in Hin. congruence.
Qed.

End SsrProps.

(* ------------------------------------------------------------------ *)
(** ** Browser-side bindings *)

Module WebProps.
Import Html Expected.

Section Runs.
Context {Env : Type}.

Lemma attr_reruns (eqb : Attribute Env -> Attribute Env -> bool) name cx f
    re prev es :
  attr_web eqb name (AttrFn cx f) = ([], Some re) ->
  render_effect_runs re (Some prev) es
  = flat_map (fun pn => if eqb (fst pn) (snd pn) then []
                        else [SetAttribute name (snd pn)])
      (combine (prev :: map f es) (map f es)).
Proof.
  intro H. injection H as <-. revert prev.
  induction es as [| e es IH]; intro prev; [reflexivity |].
  simpl. rewrite IH. simpl. destruct (eqb prev (f e)); reflexivity.
Qed.

Lemma class_reruns name cx (f : Env -> bool) re prev es :
  class_web name (ClassFn cx f) = ([], Some re) ->
  render_effect_runs re (Some prev) es
  = flat_map (fun pn => if Bool.eqb (fst pn) (snd pn) then []
                        else [ClassListSet name (snd pn)])
      (combine (prev :: map f es) (map f es)).
Proof.
  intro H. injection H as <-. revert prev.
  induction es as [| e es IH]; intro prev; [reflexivity |].
  simpl. rewrite IH. simpl. destruct (Bool.eqb prev (f e)); reflexivity.
Qed.
End Runs.

(** C2: in the browser, [attr] with a function value writes nothing at
    once and registers a render effect whose runs write the attribute
    with the first value and then with every value that differs (by the
    attribute's [PartialEq]) from the one computed the run before; any
    other value is written once, with no effect. *)
Theorem attr_web_spec {Env : Type} (eqb : Attribute Env -> Attribute Env -> bool)
    (name : string) :
  (forall cx f e0 es,
     exists re,
       attr_web eqb name (AttrFn cx f) = ([], Some re)
       /\ render_effect_runs re None (e0 :: es)
          = attribute_writes_on_change eqb name (map f (e0 :: es)))
  /\ (forall a, (forall cx f, a <> AttrFn cx f) ->
       attr_web eqb name a = ([SetAttribute name a], None)).
Proof.
  split.
  - intros cx f e0 es.
    destruct (attr_web eqb name (AttrFn cx f)) as [ops [re |]] eqn:E;
      [| discriminate].
    exists re. pose proof E as E'. injection E as <- <-. split; [reflexivity |].
    simpl. erewrite attr_reruns by exact E'. reflexivity.
  - intros [s | cx f | cx o | b] H; try reflexivity.
    exfalso. exact (H cx f eq_refl).
Qed.

(** C7: in the browser, [class] with a function value registers a render
    effect that toggles the class when the boolean differs from the run
    before, and on the first run applies it only when it is [true]. A
    plain value is applied once. *)
Theorem class_web_spec {Env : Type} (name : string) :
  (forall cx (f : Env -> bool) e0 es,
     exists re,
       class_web name (ClassFn cx f) = ([], Some re)
       /\ render_effect_runs re None (e0 :: es)
          = class_writes_on_change name (map f (e0 :: es)))
  /\ (forall b, class_web (Env := Env) name (ClassValue b) = ([ClassListSet name b], None)).
Proof.
  split.
  - intros cx f e0 es.
    destruct (class_web name (ClassFn cx f)) as [ops [re |]] eqn:E;
      [| discriminate].
    exists re. pose proof E as E'. injection E as <- <-. split; [reflexivity |].
    simpl. erewrite class_reruns by exact E'. simpl. destruct (f e0); reflexivity.
  - reflexivity.
Qed.

End WebProps.

(* ------------------------------------------------------------------ *)
(** ** Reactive runtime *)

Module RuntimeProps.

Import Reactive Expected.

Ltac lookup_node st n :=
  let E := fresh "E" in
  case_eq (nodes st !! n); [intros ?nd E | intros E]; vm_compute in E;
  [injection E as E; subst | discriminate].

Lemma option_nat_eqb_refl (v : nat) : option_nat_eqb (Some v) (Some v) = true.
Proof. simpl. apply Nat.eqb_refl. Qed.

(** A memo whose recomputed value equals its stored one only clears its
    dirty flag: no subscriber is marked, nothing is enqueued. *)
Lemma memo_commit_unchanged f n v st nd :
  nodes st !! n = Some nd -> value nd = Some v ->
  memo_commit (S f) n v st = Ok (update_node (with_dirty false) n st).
Proof.
  intros Hn Hv. simpl. rewrite Hn, Hv, option_nat_eqb_refl. reflexivity.
Qed.

(** C3: with Signal [A = 2], Memo [M = A % 2] and Effect [E] reading
    [M], writing [A := 4] does not rerun [E]; reading [M] afterwards
    recomputes it to [0], clears its dirty flag and still reruns nothing,
    since an unchanged memo value does not propagate to the memo's
    subscribers. *)
Theorem glitch_free :
  (exists st1 st2 v st3,
     glitch_run = Ok (st1, st2, v, st3)
     /\ run_log st1 = [3]
     /\ option_map deps (nodes st1 !! 3) = Some [2]
     /\ option_map subs (nodes st1 !! 2) = Some [3]
     /\ option_map dirty (nodes st2 !! 2) = Some true
     /\ run_log st2 = run_log st1 /\ pending st2 = []
     /\ v = 0
     /\ option_map dirty (nodes st3 !! 2) = Some false
     /\ run_log st3 = run_log st1 /\ pending st3 = [])
  /\ (forall f n v st nd,
        nodes st !! n = Some nd -> value nd = Some v ->
        memo_commit (S f) n v st = Ok (update_node (with_dirty false) n st)).
Proof.
  split.
  - destruct glitch_run as [[[[st1 st2] v] st3] | e] eqn:E;
      vm_compute in E; [| discriminate].
    exists st1, st2, v, st3. injection E as <- <- <- <-.
    repeat split; vm_compute; reflexivity.
  - exact memo_commit_unchanged.
Qed.

(** C4: writing a live equality-skipping signal with its current value
    returns the runtime unchanged: no version bump, no subscriber marked
    or enqueued, no rerun. *)
Theorem write_same_value_skipped f n v st nd
    (Hn : nodes st !! n = Some nd) (Hk : kind nd = KSignal)
    (Hskip : eq_skip nd = true) (Hlive : disposed nd = false)
    (Hv : value nd = Some v) :
  write (S f) n v st = Ok st.
Proof.
  simpl. rewrite Hn, Hlive, Hk. simpl. rewrite Hskip, Hv, option_nat_eqb_refl.
  reflexivity.
Qed.

Lemma write_same_value_skipped_witness :
  nodes skip_state !! 1 = Some skip_node /\ kind skip_node = KSignal
  /\ eq_skip skip_node = true /\ disposed skip_node = false
  /\ value skip_node = Some 5
  /\ option_map subs (nodes skip_state !! 1) = Some [2]
  /\ write (S fuel) 1 5 skip_state = Ok skip_state.
Proof.
  split; [vm_compute; reflexivity |].
  split; [vm_compute; reflexivity |].
  split; [vm_compute; reflexivity |].
  split; [vm_compute; reflexivity |].
  split; [vm_compute; reflexivity |].
  split; [vm_compute; reflexivity |].
  apply (write_same_value_skipped fuel 1 5 skip_state skip_node);
    vm_compute; reflexivity.
Defined.

(** *** Disposal: frame lemmas *)

Lemma same_shape_refl st : same_shape st st.
Proof. intro x. reflexivity. Qed.

Lemma same_shape_trans st1 st2 st3 :
  same_shape st1 st2 -> same_shape st2 st3 -> same_shape st1 st3.
Proof. intros H1 H2 x. rewrite H1. apply H2. Qed.

Lemma nodes_mono_refl st : nodes_mono st st.
Proof. intros n nd H. exists nd. auto. Qed.

Lemma nodes_mono_trans st1 st2 st3 :
  nodes_mono st1 st2 -> nodes_mono st2 st3 -> nodes_mono st1 st3.
Proof.
  intros H1 H2 n nd H. destruct (H1 n nd H) as [nd2 [H2' D2]].
  destruct (H2 n nd2 H2') as [nd3 [H3 D3]]. exists nd3. auto.
Qed.

Lemma flat_map_ext_In {A B} (g h : A -> list B) (l : list A) :
  (forall a, In a l -> g a = h a) -> flat_map g l = flat_map h l.
Proof.
  induction l as [| a l IH]; intro H; simpl; [reflexivity |].
  rewrite (H a (or_introl eq_refl)), IH; [reflexivity |].
  intros a' Ha'. apply H. right. exact Ha'.
Qed.

Lemma same_shape_None st st' x :
  same_shape st st' -> scopes st !! x = None -> scopes st' !! x = None.
Proof.
  intros Hs E. specialize (Hs x). rewrite E in Hs.
  destruct (scopes st' !! x); [discriminate | reflexivity].
Qed.

(** The live part of a tree only depends on its own scopes, as long as
    scopes keep their shape and disposed scopes stay disposed. *)
Lemma live_frame_tree f : forall s st st',
  same_shape st st' ->
  (forall x, In x (live_scopes f s st) -> scopes st' !! x = scopes st !! x) ->
  (forall x sc, scopes st !! x = Some sc -> sdisposed sc = true ->
     exists sc', scopes st' !! x = Some sc' /\ sdisposed sc' = true) ->
  live_scopes f s st' = live_scopes f s st
  /\ live_cleanups f s st' = live_cleanups f s st
  /\ (fits f s st -> fits f s st').
Proof.
  induction f as [| f IH]; intros s st st' Hsh Hin Hd; [simpl; auto |].
  destruct (scopes st !! s) as [sc |] eqn:E.
  - destruct (sdisposed sc) eqn:D.
    + destruct (Hd s sc E D) as [sc' [E' D']].
      simpl. rewrite E, D, E', D'. auto.
    + assert (E' : scopes st' !! s = Some sc).
      { rewrite Hin; [exact E |]. simpl. rewrite E, D. left. reflexivity. }
      assert (Hc : forall c, In c (children sc) ->
                live_scopes f c st' = live_scopes f c st
                /\ live_cleanups f c st' = live_cleanups f c st
                /\ (fits f c st -> fits f c st')).
      { intros c Hc. apply IH; [exact Hsh | | exact Hd].
        intros x Hx. apply Hin. simpl. rewrite E, D. right.
        apply in_flat_map. exists c. split; assumption. }
      simpl. rewrite E, E', D. split; [| split].
      * f_equal. apply flat_map_ext_In. intros c Hc'. apply (Hc c Hc').
      * f_equal. apply flat_map_ext_In. intros c Hc'. apply (Hc c Hc').
      * rewrite !Forall_forall. intros Hf c Hc'.
        apply (Hc c (proj1 (list_elem_of_In _ _) Hc')). apply Hf. exact Hc'.
  - simpl. rewrite E, (same_shape_None st st' s Hsh E). auto.
Qed.

Lemma live_frame f s st st' :
  same_shape st st' ->
  (forall x, In x (live_scopes f s st) -> scopes st' !! x = scopes st !! x) ->
  (forall x sc, scopes st !! x = Some sc -> sdisposed sc = true ->
     exists sc', scopes st' !! x = Some sc' /\ sdisposed sc' = true) ->
  live_scopes f s st' = live_scopes f s st
  /\ live_cleanups f s st' = live_cleanups f s st
  /\ live_nodes f s st' = live_nodes f s st
  /\ (fits f s st -> fits f s st').
Proof.
  intros Hsh Hin Hd.
  destruct (live_frame_tree f s st st' Hsh Hin Hd) as [Hs [Hc Hf]].
  split; [exact Hs |]. split; [exact Hc |]. split; [| exact Hf].
  unfold live_nodes. rewrite Hs. apply flat_map_ext_In.
  intros x Hx. rewrite (Hin x Hx). reflexivity.
Qed.

(** Marking a scope disposed. *)
Lemma mark_disposed_facts s st :
  same_shape st (update_scope with_sdisposed s st)
  /\ (forall x, x <> s -> scopes (update_scope with_sdisposed s st) !! x = scopes st !! x)
  /\ (forall sc, scopes st !! s = Some sc ->
        scopes (update_scope with_sdisposed s st) !! s = Some (with_sdisposed sc))
  /\ nodes (update_scope with_sdisposed s st) = nodes st
  /\ run_log (update_scope with_sdisposed s st) = run_log st
  /\ cleanup_log (update_scope with_sdisposed s st) = cleanup_log st.
Proof.
  unfold update_scope, set_scopes; simpl. repeat split.
  - intro x. simpl. rewrite lookup_alter.
    destruct (decide (s = x)) as [<- |]; [| reflexivity].
    destruct (scopes st !! s); reflexivity.
  - intros x Hx. apply lookup_alter_ne. congruence.
  - intros sc H. rewrite lookup_alter_eq, H. reflexivity.
Qed.

Lemma update_node_mono (g : Node -> Node) n st :
  (forall x, disposed x = true -> disposed (g x) = true) ->
  nodes_mono st (update_node g n st).
Proof.
  intros Hg m nd H. unfold update_node, set_nodes; simpl. rewrite lookup_alter.
  destruct (decide (n = m)) as [<- |].
  - rewrite H. simpl. eexists; split; [reflexivity | apply Hg].
  - exists nd. auto.
Qed.

Lemma fold_update_mono {A} (g : A -> Node -> Node) (sel : A -> nat) (l : list A) st :
  (forall a x, disposed x = true -> disposed (g a x) = true) ->
  nodes_mono st (fold_left (fun st a => update_node (g a) (sel a) st) l st).
Proof.
  intro Hg. revert st. induction l as [| a l IH]; intro st; simpl.
  - apply nodes_mono_refl.
  - eapply nodes_mono_trans; [apply update_node_mono, Hg | apply IH].
Qed.

Lemma set_nodes_self st : set_nodes (nodes st) st = st.
Proof. destruct st; reflexivity. Qed.

Lemma fold_update_set_nodes {A} (g : A -> Node -> Node) (sel : A -> nat) (l : list A) st :
  exists m, fold_left (fun st a => update_node (g a) (sel a) st) l st = set_nodes m st.
Proof.
  revert st. induction l as [| a l IH]; intro st; simpl.
  - exists (nodes st). symmetry. apply set_nodes_self.
  - destruct (IH (update_node (g a) (sel a) st)) as [m Hm]. rewrite Hm.
    exists m. destruct st; reflexivity.
Qed.

Lemma invalidate_node_facts st n :
  (exists m, invalidate_node st n = set_nodes m st)
  /\ nodes_mono st (invalidate_node st n)
  /\ (forall nd, nodes st !! n = Some nd ->
        exists nd', nodes (invalidate_node st n) !! n = Some nd' /\ disposed nd' = true).
Proof.
  unfold invalidate_node. destruct (nodes st !! n) as [nd |] eqn:E.
  - set (st1 := fold_left _ (deps nd) st).
    set (st2 := fold_left _ (subs nd) st1).
    assert (M1 : nodes_mono st st1)
      by exact (fold_update_mono (fun _ x => with_subs (remove_id n (subs x)) x)
                  (fun d => d) (deps nd) st (fun _ _ H => H)).
    assert (M2 : nodes_mono st1 st2)
      by exact (fold_update_mono (fun _ x => with_deps (remove_id n (deps x)) x)
                  (fun d => d) (subs nd) st1 (fun _ _ H => H)).
    assert (M3 : nodes_mono st2 (update_node with_disposed n st2))
      by (apply update_node_mono; reflexivity).
    split; [| split].
    + destruct (fold_update_set_nodes (fun _ x => with_subs (remove_id n (subs x)) x)
                  (fun d => d) (deps nd) st) as [m1 H1].
      destruct (fold_update_set_nodes (fun _ x => with_deps (remove_id n (deps x)) x)
                  (fun d => d) (subs nd) st1) as [m2 H2].
      unfold st2, st1 in *. rewrite H2. rewrite H1.
      eexists. destruct st; reflexivity.
    + eapply nodes_mono_trans; [exact M1 |]. eapply nodes_mono_trans; [exact M2 | exact M3].
    + intros nd0 H0. injection H0 as <-.
      destruct (M1 n nd E) as [nd1 [E1 _]]. destruct (M2 n nd1 E1) as [nd2 [E2 _]].
      unfold update_node, set_nodes; simpl. rewrite lookup_alter_eq, E2.
      eexists; split; reflexivity.
  - split; [| split].
    + exists (nodes st). symmetry. apply set_nodes_self.
    + apply nodes_mono_refl.
    + intros nd H. discriminate.
Qed.

Lemma invalidate_all_facts (l : list nat) st :
  (exists m, fold_left invalidate_node l st = set_nodes m st)
  /\ nodes_mono st (fold_left invalidate_node l st)
  /\ (forall n nd, In n l -> nodes st !! n = Some nd ->
        exists nd', nodes (fold_left invalidate_node l st) !! n = Some nd'
                    /\ disposed nd' = true).
Proof.
  revert st. induction l as [| a l IH]; intro st; simpl.
  - split; [| split].
    + exists (nodes st). symmetry. apply set_nodes_self.
    + apply nodes_mono_refl.
    + intros n nd [].
  - destruct (invalidate_node_facts st a) as [[m0 H0] [M0 D0]].
    destruct (IH (invalidate_node st a)) as [[m1 H1] [M1 D1]].
    split; [| split].
    + rewrite H1, H0. exists m1. destruct st; reflexivity.
    + eapply nodes_mono_trans; [exact M0 | exact M1].
    + intros n nd [-> | Hin] Hn.
      * destruct (D0 nd Hn) as [nd' [E' Dd]].
        destruct (M1 n nd' E') as [nd'' [E'' Dd'']]. eauto.
      * destruct (M0 n nd Hn) as [nd' [E' _]]. eapply D1; eauto.
Qed.

Lemma flat_map_flat_map {A B C} (g : B -> list C) (h : A -> list B) (l : list A) :
  flat_map g (flat_map h l) = flat_map (fun a => flat_map g (h a)) l.
Proof.
  induction l as [| a l IH]; simpl; [reflexivity |].
  rewrite flat_map_app, IH. reflexivity.
Qed.

Lemma NoDup_app_In (l k : list nat) x :
  NoDup (l ++ k) -> In x l -> ~ In x k.
Proof.
  intros H Hl Hk. apply NoDup_app in H as [_ [Hd _]].
  apply (Hd x); apply list_elem_of_In; assumption.
Qed.

Lemma dispose_post_refl st : dispose_post [] [] [] st st.
Proof.
  split; [rewrite app_nil_r; reflexivity |].
  split; [reflexivity |].
  split; [apply same_shape_refl |].
  split; [intros x _; reflexivity |].
  split; [intros x [] |].
  split; [apply nodes_mono_refl |].
  intros n nd [].
Qed.

(** After disposing the trees of [tree], the live part of a tree with no
    scope in [tree] is as it was. *)
Lemma dispose_post_frame cl tree nl st st1 f c :
  dispose_post cl tree nl st st1 ->
  (forall x, In x (live_scopes f c st) -> ~ In x tree) ->
  live_scopes f c st1 = live_scopes f c st
  /\ live_cleanups f c st1 = live_cleanups f c st
  /\ live_nodes f c st1 = live_nodes f c st
  /\ (fits f c st -> fits f c st1).
Proof.
  intros [_ [_ [Sh [O [I _]]]]] Hdis. apply live_frame; [exact Sh | |].
  - intros x Hx. apply O. apply Hdis. exact Hx.
  - intros x sc E D. destruct (in_dec Nat.eq_dec x tree) as [Hx | Hx].
    + apply I. exact Hx.
    + exists sc. rewrite O by exact Hx. split; assumption.
Qed.

Section DisposeEach.
Variable f : nat.
Hypothesis IH : forall s st, fits f s st -> NoDup (live_scopes f s st) ->
  exists st', dispose f s st = Ok st'
    /\ dispose_post (live_cleanups f s st) (live_scopes f s st) (live_nodes f s st) st st'.

Lemma dispose_each_tree (l : list nat) : forall st,
  Forall (fun c => fits f c st) l ->
  NoDup (flat_map (fun c => live_scopes f c st) l) ->
  exists st', dispose_each (dispose f) l st = Ok st'
    /\ dispose_post (flat_map (fun c => live_cleanups f c st) l)
         (flat_map (fun c => live_scopes f c st) l)
         (flat_map (fun c => live_nodes f c st) l) st st'.
Proof.
  induction l as [| c l IHl]; intros st Hfit Hnd; simpl.
  - exists st. split; [reflexivity | apply dispose_post_refl].
  - apply Forall_cons in Hfit as [Hc Hl].
    pose proof Hnd as Hnd'. apply NoDup_app in Hnd' as [Hnd1 [_ Hnd2]].
    destruct (IH c st Hc Hnd1) as [st1 [E1 P1]].
    rewrite E1. simpl.
    assert (Fr : forall c', In c' l ->
              live_scopes f c' st1 = live_scopes f c' st
              /\ live_cleanups f c' st1 = live_cleanups f c' st
              /\ live_nodes f c' st1 = live_nodes f c' st
              /\ (fits f c' st -> fits f c' st1)).
    { intros c' Hc'. apply (dispose_post_frame _ _ _ st st1 f c' P1).
      intros x Hx Hxc. eapply NoDup_app_In; [exact Hnd | exact Hxc |].
      apply in_flat_map. exists c'. split; assumption. }
    assert (Hl1 : Forall (fun c => fits f c st1) l).
    { rewrite Forall_forall in *. intros c' Hc'.
      apply (Fr c' (proj1 (list_elem_of_In _ _) Hc')). apply Hl. exact Hc'. }
    assert (Es : flat_map (fun c => live_scopes f c st1) l
                 = flat_map (fun c => live_scopes f c st) l)
      by (apply flat_map_ext_In; intros c' Hc'; apply (Fr c' Hc')).
    assert (Ec : flat_map (fun c => live_cleanups f c st1) l
                 = flat_map (fun c => live_cleanups f c st) l)
      by (apply flat_map_ext_In; intros c' Hc'; apply (Fr c' Hc')).
    assert (En : flat_map (fun c => live_nodes f c st1) l
                 = flat_map (fun c => live_nodes f c st) l)
      by (apply flat_map_ext_In; intros c' Hc'; apply (Fr c' Hc')).
    assert (Hnd2' : NoDup (flat_map (fun c => live_scopes f c st1) l))
      by (rewrite Es; exact Hnd2).
    destruct (IHl st1 Hl1 Hnd2') as [st2 [E2 P2]].
    rewrite Es, Ec, En in P2.
    destruct P1 as [C1 [R1 [S1 [O1 [I1 [M1 N1]]]]]].
    destruct P2 as [C2 [R2 [S2 [O2 [I2 [M2 N2]]]]]].
    exists st2. split; [exact E2 |].
    repeat split.
    + rewrite C2, C1, app_assoc. reflexivity.
    + rewrite R2, R1. reflexivity.
    + eapply same_shape_trans; eassumption.
    + intros x Hx. rewrite O2, O1; [reflexivity | |];
        intro H; apply Hx; apply in_or_app; auto.
    + intros x Hx. apply in_app_or in Hx as [Hx | Hx].
      * rewrite O2; [apply I1; exact Hx |].
        eapply NoDup_app_In; [exact Hnd | exact Hx].
      * apply I2. exact Hx.
    + eapply nodes_mono_trans; eassumption.
    + intros n nd Hin Hnd0. apply in_app_or in Hin as [Hin | Hin].
      * destruct (N1 n nd Hin Hnd0) as [nd1 [E1' D1]].
        destruct (M2 n nd1 E1') as [nd2 [E2' D2]]. eauto.
      * destruct (M1 n nd Hnd0) as [nd1 [E1' _]]. eapply N2; eauto.
Qed.
End DisposeEach.

Lemma dispose_tree (f : nat) : forall s st,
  fits f s st -> NoDup (live_scopes f s st) ->
  exists st', dispose f s st = Ok st'
    /\ dispose_post (live_cleanups f s st) (live_scopes f s st) (live_nodes f s st) st st'.
Proof.
  induction f as [| f IH]; intros s st Hfit Hnd; [contradiction |].
  destruct (scopes st !! s) as [sc |] eqn:Es.
  2:{ exists st. simpl. rewrite Es. split; [reflexivity |].
      unfold live_nodes. simpl. rewrite Es. apply dispose_post_refl. }
  destruct (sdisposed sc) eqn:Hd.
  { exists st. simpl. rewrite Es, Hd. split; [reflexivity |].
    unfold live_nodes. simpl. rewrite Es, Hd. apply dispose_post_refl. }
  assert (Hch : Forall (fun c => fits f c st) (children sc))
    by (simpl in Hfit; rewrite Es, Hd in Hfit; exact Hfit).
  assert (Htree : live_scopes (S f) s st
                  = s :: flat_map (fun c => live_scopes f c st) (children sc))
    by (simpl; rewrite Es, Hd; reflexivity).
  assert (Hcl : live_cleanups (S f) s st
                = app (flat_map (fun c => live_cleanups f c st) (children sc))
                      (rev (cleanups sc)))
    by (simpl; rewrite Es, Hd; reflexivity).
  assert (Hnodes : live_nodes (S f) s st
                   = app (owned sc) (flat_map (fun c => live_nodes f c st) (children sc))).
  { unfold live_nodes. rewrite Htree. simpl. rewrite Es, flat_map_flat_map. reflexivity. }
  rewrite Htree in Hnd. apply NoDup_cons in Hnd as [Hs Hnd].
  assert (Hs' : ~ In s (flat_map (fun c => live_scopes f c st) (children sc)))
    by (intro H; apply Hs; apply list_elem_of_In; exact H).
  set (st1 := update_scope with_sdisposed s st).
  destruct (mark_disposed_facts s st) as [S1 [O1 [I1 [N1 [R1 C1]]]]].
  fold st1 in S1, O1, I1, N1, R1, C1.
  assert (Fr : forall c, In c (children sc) ->
            live_scopes f c st1 = live_scopes f c st
            /\ live_cleanups f c st1 = live_cleanups f c st
            /\ live_nodes f c st1 = live_nodes f c st
            /\ (fits f c st -> fits f c st1)).
  { intros c Hc. apply live_frame; [exact S1 | |].
    - intros x Hx. apply O1. intros ->. apply Hs'. apply in_flat_map.
      exists c. split; assumption.
    - intros x sc' E D. destruct (Nat.eq_dec x s) as [-> | Hne].
      + rewrite Es in E. injection E as <-. congruence.
      + exists sc'. rewrite O1 by exact Hne. split; assumption. }
  assert (Hch1 : Forall (fun c => fits f c st1) (children sc)).
  { rewrite Forall_forall in *. intros c Hc.
    apply (Fr c (proj1 (list_elem_of_In _ _) Hc)). apply Hch. exact Hc. }
  assert (Es1 : flat_map (fun c => live_scopes f c st1) (children sc)
                = flat_map (fun c => live_scopes f c st) (children sc))
    by (apply flat_map_ext_In; intros c Hc; apply (Fr c Hc)).
  assert (Ec1 : flat_map (fun c => live_cleanups f c st1) (children sc)
                = flat_map (fun c => live_cleanups f c st) (children sc))
    by (apply flat_map_ext_In; intros c Hc; apply (Fr c Hc)).
  assert (En1 : flat_map (fun c => live_nodes f c st1) (children sc)
                = flat_map (fun c => live_nodes f c st) (children sc))
    by (apply flat_map_ext_In; intros c Hc; apply (Fr c Hc)).
  assert (Hnd1 : NoDup (flat_map (fun c => live_scopes f c st1) (children sc)))
    by (rewrite Es1; exact Hnd).
  destruct (dispose_each_tree f IH (children sc) st1 Hch1 Hnd1)
    as [st2 [E2 [C2 [R2 [S2 [O2 [I2 [M2 N2]]]]]]]].
  rewrite Es1, Ec1, En1 in *.
  destruct (invalidate_all_facts (owned sc) (log_cleanups (rev (cleanups sc)) st2))
    as [[m Hm] [M3 N3]].
  set (st3 := fold_left invalidate_node (owned sc) (log_cleanups (rev (cleanups sc)) st2)).
  fold st3 in Hm, M3, N3.
  exists st3. split.
  { simpl. rewrite Es, Hd. simpl. fold st1. rewrite E2. reflexivity. }
  rewrite Htree, Hcl, Hnodes.
  assert (Sc3 : scopes st3 = scopes st2) by (rewrite Hm; reflexivity).
  split; [| split; [| split; [| split; [| split; [| split]]]]].
  - rewrite Hm. simpl. rewrite C2, C1, app_assoc. reflexivity.
  - rewrite Hm. simpl. rewrite R2, R1. reflexivity.
  - intro x. rewrite Sc3. rewrite (S1 x). apply S2.
  - intros x Hx. rewrite Sc3, O2, O1; [reflexivity | |].
    + intros ->. apply Hx. left. reflexivity.
    + intro H. apply Hx. right. exact H.
  - intros x [<- | Hx].
    + rewrite Sc3, O2 by exact Hs'. rewrite (I1 sc Es). eexists; split; reflexivity.
    + rewrite Sc3. apply I2. exact Hx.
  - intros n nd Hn. rewrite N1 in *.
    destruct (M2 n nd Hn) as [nd2 [E2' D2]].
    assert (El : nodes (log_cleanups (rev (cleanups sc)) st2) !! n = Some nd2) by exact E2'.
    destruct (M3 n nd2 El) as [nd3 [E3 D3]]. eauto.
  - intros n nd Hin Hn. apply in_app_or in Hin as [Hin | Hin].
    + rewrite <- N1 in Hn. destruct (M2 n nd Hn) as [nd2 [E2' _]].
      apply (N3 n nd2 Hin E2').
    + rewrite <- N1 in Hn. destruct (N2 n nd Hin Hn) as [nd2 [E2' D2]].
      assert (El : nodes (log_cleanups (rev (cleanups sc)) st2) !! n = Some nd2) by exact E2'.
      destruct (M3 n nd2 El) as [nd3 [E3 D3]]. eauto.
Qed.

(** A write to a disposed node only records a [UseAfterDispose]
    diagnostic. *)
Lemma write_disposed f n v st nd :
  nodes st !! n = Some nd -> disposed nd = true ->
  write (S f) n v st = Ok (log_diag (UseAfterDispose n) st).
Proof. intros Hn Hd. simpl. rewrite Hn, Hd. reflexivity. Qed.

Lemma dispose_disposed f s st sc :
  scopes st !! s = Some sc -> sdisposed sc = true -> dispose (S f) s st = Ok st.
Proof. intros Hs Hd. simpl. rewrite Hs, Hd. reflexivity. Qed.

(** *** No runtime call brings a disposed node back *)

Lemma bind_ok {A B} (r : Res A) (k : A -> Res B) x :
  bind r k = Ok x -> exists a, r = Ok a /\ k a = Ok x.
Proof. destruct r as [a | e]; simpl; [eauto | discriminate]. Qed.

Lemma keeps_refl st : keeps st st.
Proof. split; [apply nodes_mono_refl | split; auto]. Qed.

Lemma keeps_trans st1 st2 st3 : keeps st1 st2 -> keeps st2 st3 -> keeps st1 st3.
Proof.
  intros [M1 [K1 I1]] [M2 [K2 I2]].
  split; [eapply nodes_mono_trans; eassumption |]. split; [auto | congruence].
Qed.

Lemma keeps_same st st' : nodes st' = nodes st -> next_id st' = next_id st -> keeps st st'.
Proof.
  intros Hn Hi. split; [| split; [intros k; rewrite Hn; auto | exact Hi]].
  intros n nd H. exists nd. rewrite Hn. auto.
Qed.

Ltac keeps_same := apply keeps_same; reflexivity.

Lemma keeps_update_node (g : Node -> Node) n st :
  (forall x, disposed x = true -> disposed (g x) = true) -> keeps st (update_node g n st).
Proof.
  intro Hg. split; [apply update_node_mono, Hg |]. split; [| reflexivity].
  intros k Hk. unfold update_node, set_nodes; simpl. rewrite lookup_alter.
  destruct (decide (n = k)) as [<- |]; [rewrite Hk; reflexivity | exact Hk].
Qed.

Lemma keeps_fold_update {A} (g : A -> Node -> Node) (sel : A -> nat) (l : list A) st :
  (forall a x, disposed x = true -> disposed (g a x) = true) ->
  keeps st (fold_left (fun st a => update_node (g a) (sel a) st) l st).
Proof.
  intro Hg. revert st. induction l as [| a l IH]; intro st; simpl; [apply keeps_refl |].
  eapply keeps_trans; [apply keeps_update_node, Hg | apply IH].
Qed.

Lemma keeps_mark_subscribers l : forall st, keeps st (mark_subscribers l st).
Proof.
  unfold mark_subscribers. induction l as [| s l IH]; intro st; simpl; [apply keeps_refl |].
  eapply keeps_trans; [| apply IH]. unfold mark_one.
  destruct (nodes st !! s) as [nd |]; [| apply keeps_refl].
  destruct (kind nd).
  - apply keeps_refl.
  - apply keeps_update_node. auto.
  - destruct (existsb (Nat.eqb s) (pending st)); [apply keeps_refl | keeps_same].
Qed.

Lemma keeps_track n st : keeps st (track n st).
Proof.
  unfold track. destruct (observers st) as [| o os]; [apply keeps_refl |].
  eapply keeps_trans; apply keeps_update_node; auto.
Qed.

Lemma keeps_clear_deps o st : keeps st (clear_deps o st).
Proof.
  unfold clear_deps. destruct (nodes st !! o) as [nd |]; [| apply keeps_refl].
  eapply keeps_trans; [apply (keeps_fold_update (fun _ x => with_subs (remove_id o (subs x)) x) (fun d => d)); auto |].
  apply keeps_update_node. auto.
Qed.

Lemma runtime_keeps (f : nat) :
  (forall b st r, run_body f b st = Ok r -> keeps st (snd r))
  /\ (forall n st r, read f n st = Ok r -> keeps st (snd r))
  /\ (forall n v st st', write f n v st = Ok st' -> keeps st st')
  /\ (forall st st', flush f st = Ok st' -> keeps st st')
  /\ (forall counts st st', drain f counts st = Ok st' -> keeps st st')
  /\ (forall e st st', run_effect f e st = Ok st' -> keeps st st')
  /\ (forall n st st', recompute_memo f n st = Ok st' -> keeps st st')
  /\ (forall n v st st', memo_commit f n v st = Ok st' -> keeps st st').
Proof.
  induction f as [| f IH].
  { repeat split; intros; discriminate. }
  destruct IH as (Hb & Hr & Hw & Hf & Hd & He & Hm & Hc).
  split; [| split; [| split; [| split; [| split; [| split; [| split]]]]]].
  - (* run_body *)
    intros b st r H. destruct b as [v | n k | n v k | b k]; cbn [run_body] in H.
    + injection H as <-. apply keeps_refl.
    + apply bind_ok in H as [r1 [H1 H2]].
      eapply keeps_trans; [exact (Hr _ _ _ H1) | exact (Hb _ _ _ H2)].
    + apply bind_ok in H as [st1 [H1 H2]].
      eapply keeps_trans; [exact (Hw _ _ _ _ H1) | exact (Hb _ _ _ H2)].
    + apply bind_ok in H as [r1 [H1 H2]].
      apply bind_ok in H2 as [st4 [H3 H4]].
      eapply keeps_trans; [| exact (Hb _ _ _ H4)].
      eapply keeps_trans with (st2 := set_depth (S (depth st)) st); [keeps_same |].
      eapply keeps_trans; [exact (Hb _ _ _ H1) |].
      eapply keeps_trans with (st2 := set_depth (pred (depth (snd r1))) (snd r1)); [keeps_same |].
      destruct (Nat.eqb _ 0); [exact (Hf _ _ H3) | injection H3 as <-; apply keeps_refl].
  - (* read *)
    intros n st r H. cbn [read] in H.
    destruct (nodes st !! n) as [nd |]; [| discriminate].
    destruct (disposed nd).
    + injection H as <-. keeps_same.
    + apply bind_ok in H as [st1 [H1 H2]]. injection H2 as <-. simpl.
      assert (K1 : keeps st st1).
      { destruct (kind nd); [injection H1 as <-; apply keeps_refl | | discriminate].
        destruct (dirty nd); [exact (Hm _ _ _ H1) | injection H1 as <-; apply keeps_refl]. }
      eapply keeps_trans; [exact K1 |]. eapply keeps_trans; [apply (keeps_track n st1) |].
      keeps_same.
  - (* write *)
    intros n v st st' H. cbn [write] in H.
    destruct (nodes st !! n) as [nd |]; [| discriminate].
    destruct (disposed nd); [injection H as <-; keeps_same |].
    destruct (negb (NodeKind_eqb (kind nd) KSignal)); [discriminate |].
    destruct (eq_skip nd && option_nat_eqb (value nd) (Some v));
      [injection H as <-; apply keeps_refl |].
    match type of H with
    | (if _ then flush f ?s1 else Ok ?s1) = Ok _ =>
        assert (K1 : keeps st s1);
        [| destruct (Nat.eqb _ 0); [exact (keeps_trans _ _ _ K1 (Hf _ _ H)) |
                                     injection H as <-; exact K1]]
    end.
    eapply keeps_trans; [| apply keeps_mark_subscribers].
    eapply keeps_trans; [apply (keeps_update_node (with_value (Some v) (S (clock st)))); auto |].
    keeps_same.
  - (* flush *)
    intros st st' H. cbn [flush] in H. apply bind_ok in H as [st1 [H1 H2]].
    injection H2 as <-.
    eapply keeps_trans with (st2 := set_depth (S (depth st)) st); [keeps_same |].
    eapply keeps_trans; [exact (Hd _ _ _ H1) | keeps_same].
  - (* drain *)
    intros counts st st' H. cbn [drain] in H.
    destruct (pending st) as [| e q]; [injection H as <-; apply keeps_refl |].
    eapply keeps_trans with (st2 := set_pending q st); [keeps_same |].
    destruct (nodes (set_pending q st) !! e) as [nd |]; [| exact (Hd _ _ _ H)].
    destruct (disposed nd || negb (NodeKind_eqb (kind nd) KEffect)); [exact (Hd _ _ _ H) |].
    destruct (Nat.ltb max_reruns (S (count e counts))); [discriminate |].
    apply bind_ok in H as [st2 [H1 H2]].
    eapply keeps_trans; [exact (He _ _ _ H1) | exact (Hd _ _ _ H2)].
  - (* run_effect *)
    intros e st st' H. cbn [run_effect] in H.
    destruct (nodes st !! e) as [nd |]; [| discriminate].
    apply bind_ok in H as [r [H1 H2]]. injection H2 as <-.
    eapply keeps_trans with (st2 := log_run e st); [keeps_same |].
    eapply keeps_trans; [apply keeps_clear_deps |].
    eapply keeps_trans; [| eapply keeps_trans; [exact (Hb _ _ _ H1) | keeps_same]].
    keeps_same.
  - (* recompute_memo *)
    intros n st st' H. cbn [recompute_memo] in H.
    destruct (nodes st !! n) as [nd |]; [| discriminate].
    apply bind_ok in H as [r [H1 H2]].
    eapply keeps_trans; [apply (keeps_clear_deps n st) |].
    eapply keeps_trans; [| eapply keeps_trans; [exact (Hb _ _ _ H1) |]].
    + keeps_same.
    + eapply keeps_trans; [| exact (Hc _ _ _ _ H2)]. keeps_same.
  - (* memo_commit *)
    intros n v st st' H. cbn [memo_commit] in H.
    destruct (nodes st !! n) as [nd |]; [| discriminate].
    destruct (option_nat_eqb (value nd) (Some v)).
    + injection H as <-. apply keeps_update_node. auto.
    + match type of H with
      | (if _ then flush f ?s1 else Ok ?s1) = Ok _ =>
          assert (K1 : keeps st s1);
          [| destruct (Nat.eqb _ 0); [exact (keeps_trans _ _ _ K1 (Hf _ _ H)) |
                                       injection H as <-; exact K1]]
      end.
      eapply keeps_trans; [| apply keeps_mark_subscribers].
      eapply keeps_trans;
        [apply (keeps_update_node (fun nd => with_dirty false (with_value (Some v) (S (clock st)) nd))); auto |].
      keeps_same.
Qed.

Lemma keeps_invalidate l : forall st, keeps st (fold_left invalidate_node l st).
Proof.
  induction l as [| n l IH]; intro st; simpl; [apply keeps_refl |].
  eapply keeps_trans; [| apply IH]. unfold invalidate_node.
  destruct (nodes st !! n) as [nd |]; [| apply keeps_refl].
  eapply keeps_trans; [apply (keeps_fold_update (fun _ x => with_subs (remove_id n (subs x)) x) (fun d => d)); auto |].
  eapply keeps_trans; [apply (keeps_fold_update (fun _ x => with_deps (remove_id n (deps x)) x) (fun d => d)); auto |].
  apply keeps_update_node. auto.
Qed.

Lemma dispose_keeps (f : nat) : forall s st st', dispose f s st = Ok st' -> keeps st st'.
Proof.
  induction f as [| f IH]; intros s st st' H; [discriminate |].
  cbn [dispose] in H. destruct (scopes st !! s) as [sc |]; [| injection H as <-; apply keeps_refl].
  destruct (sdisposed sc); [injection H as <-; apply keeps_refl |].
  apply bind_ok in H as [st2 [H1 H2]]. injection H2 as <-.
  eapply keeps_trans with (st2 := update_scope with_sdisposed s st); [keeps_same |].
  eapply keeps_trans with (st2 := st2).
  - revert H1. generalize (update_scope with_sdisposed s st) as st1.
    induction (children sc) as [| c l IHl]; intros st1 H1; simpl in H1.
    + injection H1 as <-. apply keeps_refl.
    + apply bind_ok in H1 as [st3 [H3 H4]].
      eapply keeps_trans; [exact (IH _ _ _ H3) | exact (IHl _ H4)].
  - eapply keeps_trans with (st2 := log_cleanups (rev (cleanups sc)) st2); [keeps_same |].
    apply keeps_invalidate.
Qed.

Lemma fresh_keeps st st' : fresh st -> keeps st st' -> fresh st'.
Proof.
  intros Hf [_ [K I]] k Hk. apply K, Hf. rewrite <- I. exact Hk.
Qed.

Lemma add_node_fresh scope nd st :
  fresh st -> fresh (snd (add_node scope nd st)) /\ nodes_mono st (snd (add_node scope nd st)).
Proof.
  intros Hf. unfold add_node. simpl. split.
  - intros k Hk. simpl in Hk. simpl. rewrite lookup_insert_ne by lia. apply Hf. lia.
  - intros n nd0 Hn. simpl. exists nd0. split; [| auto].
    rewrite lookup_insert_ne; [exact Hn |]. intro Heq.
    assert (nodes st !! n = None) by (apply Hf; lia). congruence.
Qed.

Lemma run_op_fresh g op st st' :
  fresh st -> run_op g op st = Ok st' -> fresh st' /\ nodes_mono st st'.
Proof.
  intros Hf H.
  assert (Kp : keeps st st' -> fresh st' /\ nodes_mono st st')
    by (intro K; split; [exact (fresh_keeps st st' Hf K) | apply K]).
  destruct (runtime_keeps g) as (Hb & Hr & Hw & _).
  destruct op as [n | n v | b | par | scope init skip | scope b | scope b | scope cb | s0];
    simpl in H.
  - apply bind_ok in H as [r [H1 H2]]. injection H2 as <-. apply Kp, (Hr _ _ _ H1).
  - apply Kp, (Hw _ _ _ _ H).
  - unfold batch in H. apply bind_ok in H as [r [H1 H2]]. injection H2 as <-.
    apply Kp, (Hb _ _ _ H1).
  - injection H as <-. unfold create_scope.
    destruct par as [p |]; simpl; (split; [| intros n nd Hn; exists nd; auto]);
      intros k Hk; apply Hf; simpl in Hk; lia.
  - injection H as <-. apply add_node_fresh, Hf.
  - injection H as <-. apply add_node_fresh, Hf.
  - unfold create_effect in H.
    destruct (add_node_fresh scope (mkNode KEffect scope None 0 [] [] false false b false) st Hf)
      as [F1 M1].
    destruct (add_node scope (mkNode KEffect scope None 0 [] [] false false b false) st)
      as [id st1] eqn:E. simpl in F1, M1.
    apply bind_ok in H as [r [H1 H2]]. injection H2 as <-.
    apply bind_ok in H1 as [st2 [H1 H3]]. injection H3 as <-. simpl.
    destruct (runtime_keeps g) as (_ & _ & _ & _ & _ & He & _).
    pose proof (He _ _ _ H1) as K.
    split; [exact (fresh_keeps st1 st2 F1 K) | eapply nodes_mono_trans; [exact M1 | apply K]].
  - injection H as <-. apply Kp. keeps_same.
  - apply Kp, (dispose_keeps _ _ _ _ H).
Qed.

Lemma run_ops_fresh g ops : forall st st',
  fresh st -> run_ops g ops st = Ok st' -> fresh st' /\ nodes_mono st st'.
Proof.
  induction ops as [| op ops IH]; intros st st' Hf H; simpl in H.
  - injection H as <-. split; [exact Hf | apply nodes_mono_refl].
  - apply bind_ok in H as [st1 [H1 H2]].
    destruct (run_op_fresh g op st st1 Hf H1) as [F1 M1].
    destruct (IH st1 st' F1 H2) as [F2 M2].
    split; [exact F2 | eapply nodes_mono_trans; eassumption].
Qed.




(** *** Batches *)

Lemma agree_refl {A} (P : Node -> A) st : agree P st st.
Proof. intros n. reflexivity. Qed.

Lemma agree_sym {A} (P : Node -> A) st st' : agree P st st' -> agree P st' st.
Proof. intros H n. symmetry. apply H. Qed.

Lemma agree_trans {A} (P : Node -> A) st1 st2 st3 :
  agree P st1 st2 -> agree P st2 st3 -> agree P st1 st3.
Proof. intros H1 H2 n. rewrite H1. apply H2. Qed.

Lemma agree_set_nodes {A} (P : Node -> A) st st' :
  nodes st' = nodes st -> agree P st st'.
Proof. intros H n. rewrite H. reflexivity. Qed.

Lemma agree_update {A} (P : Node -> A) (g : Node -> Node) n st :
  (forall x, P (g x) = P x) -> agree P st (update_node g n st).
Proof.
  intros Hg m. unfold update_node, set_nodes; simpl. rewrite lookup_alter.
  destruct (decide (n = m)) as [<- |]; [|reflexivity].
  destruct (nodes st !! n); simpl; [rewrite Hg|]; reflexivity.
Qed.

Lemma agree_fold_update {B A} (P : Node -> A) (g : B -> Node -> Node)
    (sel : B -> nat) (l : list B) st :
  (forall a x, P (g a x) = P x) ->
  agree P st (fold_left (fun st a => update_node (g a) (sel a) st) l st).
Proof.
  intro Hg. revert st. induction l as [| a l IH]; intro st; simpl.
  - apply agree_refl.
  - eapply agree_trans; [apply agree_update, Hg | apply IH].
Qed.

Lemma agree_frame_lookup st st' n nd :
  agree frame st st' -> nodes st !! n = Some nd ->
  exists nd', nodes st' !! n = Some nd'
              /\ kind nd' = kind nd /\ eq_skip nd' = eq_skip nd
              /\ body nd' = body nd /\ disposed nd' = disposed nd.
Proof.
  intros H Hn. specialize (H n). rewrite Hn in H.
  destruct (nodes st' !! n) as [nd'|]; simpl in H; [|discriminate].
  exists nd'. unfold frame in H. inversion H. auto.
Qed.

Lemma agree_value_of st st' n : agree value st st' -> value_of st n = value_of st' n.
Proof.
  intros H. unfold value_of. specialize (H n).
  destruct (nodes st !! n), (nodes st' !! n); simpl in H; try discriminate.
  - injection H as H. rewrite H. reflexivity.
  - reflexivity.
Qed.

Lemma agree_subs_of st st' n : agree subs st st' -> subs_of st n = subs_of st' n.
Proof.
  intros H. unfold subs_of. specialize (H n).
  destruct (nodes st !! n), (nodes st' !! n); simpl in H; try discriminate.
  - injection H as H. exact H.
  - reflexivity.
Qed.

Lemma agree_is_effect st st' e : agree frame st st' -> is_effect st e = is_effect st' e.
Proof.
  intros H. unfold is_effect. destruct (nodes st !! e) as [nd|] eqn:E.
  - destruct (agree_frame_lookup st st' e nd H E) as (nd' & -> & Hk & _).
    rewrite Hk. reflexivity.
  - specialize (H e). rewrite E in H.
    destruct (nodes st' !! e); [discriminate | reflexivity].
Qed.

Lemma signal_ok_agree st st' n : agree frame st st' -> signal_ok st n -> signal_ok st' n.
Proof.
  intros H (nd & Hn & Hk & Hd & He).
  destruct (agree_frame_lookup st st' n nd H Hn) as (nd' & Hn' & Hk' & He' & _ & Hd').
  exists nd'. rewrite Hk', He', Hd'. auto.
Qed.

Lemma reads_signals_agree st st' b :
  agree frame st st' -> reads_signals st b -> reads_signals st' b.
Proof.
  intros H Hb. induction Hb as [v | n k Hn Hk IH].
  - constructor.
  - constructor; [|exact IH].
    destruct Hn as (nd & Hn & Hkd).
    destruct (agree_frame_lookup st st' n nd H Hn) as (nd' & Hn' & Hk' & _).
    exists nd'. rewrite Hk'. auto.
Qed.

Lemma effect_ok_agree st st' e : agree frame st st' -> effect_ok st e -> effect_ok st' e.
Proof.
  intros H (nd & Hn & Hk & Hd & Hb).
  destruct (agree_frame_lookup st st' e nd H Hn) as (nd' & Hn' & Hk' & _ & Hb' & Hd').
  exists nd'. rewrite Hk', Hd', Hb'. split; [exact Hn'|]. split; [exact Hk|].
  split; [exact Hd|]. eapply reads_signals_agree; eassumption.
Qed.

Lemma enqueue_subs_agree st st' l q :
  agree frame st st' -> enqueue_subs st l q = enqueue_subs st' l q.
Proof.
  intros H. unfold enqueue_subs. revert q.
  induction l as [| a l IH]; intro q; simpl; [reflexivity|].
  rewrite (agree_is_effect st st' a H). apply IH.
Qed.

Lemma enqueue_all_agree st st' ws q :
  agree frame st st' -> agree subs st st' -> enqueue_all st ws q = enqueue_all st' ws q.
Proof.
  intros Hf Hs. unfold enqueue_all. revert q.
  induction ws as [| [n v] ws IH]; intro q; simpl; [reflexivity|].
  rewrite (agree_subs_of st st' n Hs), (enqueue_subs_agree st st' _ _ Hf). apply IH.
Qed.

Lemma enqueue_subs_In st l q e :
  In e (enqueue_subs st l q) <-> In e q \/ (In e l /\ is_effect st e = true).
Proof.
  unfold enqueue_subs. revert q. induction l as [| a l IH]; intro q; simpl.
  - tauto.
  - rewrite IH. destruct (is_effect st a) eqn:Ea.
    + destruct (existsb (Nat.eqb a) q) eqn:Ex.
      * apply existsb_exists in Ex as [x [Hx Hax]]. apply Nat.eqb_eq in Hax. subst x.
        split; intros Hin; intuition (subst; auto).
      * rewrite in_app_iff. simpl. split; intros Hin; intuition (subst; auto).
    + split; intros Hin; intuition (subst; congruence).
Qed.

Lemma enqueue_subs_NoDup st l q : NoDup q -> NoDup (enqueue_subs st l q).
Proof.
  unfold enqueue_subs. revert q. induction l as [| a l IH]; intros q Hq; simpl; [exact Hq|].
  apply IH. destruct (is_effect st a); [|exact Hq].
  destruct (existsb (Nat.eqb a) q) eqn:Ex; [exact Hq|].
  apply NoDup_app. split; [exact Hq|]. split; [|apply NoDup_singleton].
  intros x Hx Hx'. apply list_elem_of_singleton in Hx'. subst x.
  apply list_elem_of_In in Hx.
  assert (existsb (Nat.eqb a) q = true) as Ht.
  { apply existsb_exists. exists a. split; [exact Hx | apply Nat.eqb_refl]. }
  congruence.
Qed.

Lemma enqueue_all_In st ws q e :
  In e (enqueue_all st ws q) <->
  In e q \/ (is_effect st e = true /\ exists n v, In (n, v) ws /\ In e (subs_of st n)).
Proof.
  unfold enqueue_all. revert q. induction ws as [| [n v] ws IH]; intro q; simpl.
  - split; [tauto|]. intros [H | (_ & n & v & [] & _)]. exact H.
  - rewrite IH. fold (enqueue_subs st (subs_of st n) q). rewrite enqueue_subs_In.
    split.
    + intros [[Hq | [Hs He]] | (He & n' & v' & Hin & Hs)].
      * left. exact Hq.
      * right. split; [exact He|]. exists n, v. auto.
      * right. split; [exact He|]. exists n', v'. auto.
    + intros [Hq | (He & n' & v' & [Heq | Hin] & Hs)].
      * left. left. exact Hq.
      * injection Heq as <- <-. left. right. auto.
      * right. split; [exact He|]. exists n', v'. auto.
Qed.

Lemma enqueue_all_NoDup st ws q : NoDup q -> NoDup (enqueue_all st ws q).
Proof.
  unfold enqueue_all. revert q. induction ws as [| nv ws IH]; intros q Hq; simpl; [exact Hq|].
  apply IH. apply enqueue_subs_NoDup. exact Hq.
Qed.

Lemma same_logs_refl st : same_logs st st.
Proof. unfold same_logs. auto. Qed.

Lemma same_logs_trans st1 st2 st3 :
  same_logs st1 st2 -> same_logs st2 st3 -> same_logs st1 st3.
Proof. unfold same_logs. intros (H1 & H2 & H3) (H4 & H5 & H6). rewrite H4, H5, H6. auto. Qed.

Lemma mark_one_facts st0 st s :
  agree frame st0 st ->
  agree frame st (mark_one st s) /\ agree subs st (mark_one st s)
  /\ agree value st (mark_one st s) /\ same_logs st (mark_one st s)
  /\ pending (mark_one st s) =
     (if is_effect st0 s
      then if existsb (Nat.eqb s) (pending st) then pending st else app (pending st) [s]
      else pending st).
Proof.
  intros Hag. rewrite (agree_is_effect st0 st s Hag). unfold mark_one, is_effect.
  destruct (nodes st !! s) as [nd|].
  2: { refine (conj (agree_refl _ _) (conj (agree_refl _ _) (conj (agree_refl _ _)
         (conj (same_logs_refl _) eq_refl)))). }
  destruct (kind nd); simpl.
  - refine (conj (agree_refl _ _) (conj (agree_refl _ _) (conj (agree_refl _ _)
      (conj (same_logs_refl _) eq_refl)))).
  - refine (conj _ (conj _ (conj _ (conj _ eq_refl))));
      [apply agree_update; reflexivity .. | unfold same_logs; auto].
  - destruct (existsb (Nat.eqb s) (pending st)).
    + refine (conj (agree_refl _ _) (conj (agree_refl _ _) (conj (agree_refl _ _)
        (conj (same_logs_refl _) eq_refl)))).
    + refine (conj _ (conj _ (conj _ (conj _ eq_refl))));
        [apply agree_set_nodes; reflexivity .. | unfold same_logs; auto].
Qed.

Lemma mark_subscribers_facts st0 l : forall st,
  agree frame st0 st ->
  agree frame st (mark_subscribers l st) /\ agree subs st (mark_subscribers l st)
  /\ agree value st (mark_subscribers l st) /\ same_logs st (mark_subscribers l st)
  /\ pending (mark_subscribers l st) = enqueue_subs st0 l (pending st).
Proof.
  unfold mark_subscribers, enqueue_subs.
  induction l as [| a l IH]; intros st Hag; simpl.
  - refine (conj (agree_refl _ _) (conj (agree_refl _ _) (conj (agree_refl _ _)
      (conj (same_logs_refl _) eq_refl)))).
  - destruct (mark_one_facts st0 st a Hag) as (Hf & Hs & Hv & Hl & Hp).
    destruct (IH (mark_one st a) (agree_trans _ _ _ _ Hag Hf))
      as (Hf' & Hs' & Hv' & Hl' & Hp').
    refine (conj (agree_trans _ _ _ _ Hf Hf') (conj (agree_trans _ _ _ _ Hs Hs')
      (conj (agree_trans _ _ _ _ Hv Hv') (conj (same_logs_trans _ _ _ Hl Hl') _)))).
    rewrite Hp', Hp. reflexivity.
Qed.

(** The state a live write without equality-skip leaves inside a batch. *)
Lemma write_live f n v st nd :
  nodes st !! n = Some nd -> kind nd = KSignal -> disposed nd = false ->
  eq_skip nd = false -> 0 < depth st ->
  write (S f) n v st =
  Ok (mark_subscribers (subs nd)
        (set_clock (S (clock st)) (update_node (with_value (Some v) (S (clock st))) n st))).
Proof.
  intros Hn Hk Hd He Hdep. simpl. rewrite Hn, Hd, Hk, He. simpl.
  set (st1 := set_clock (S (clock st)) (update_node (with_value (Some v) (S (clock st))) n st)).
  destruct (mark_subscribers_facts st1 (subs nd) st1 (agree_refl _ _))
    as (_ & _ & _ & (_ & _ & Hdp) & _).
  rewrite Hdp. simpl. destruct (depth st) eqn:E; [lia|]. reflexivity.
Qed.

Lemma write_live_facts n v st nd :
  nodes st !! n = Some nd ->
  let st1 := mark_subscribers (subs nd)
        (set_clock (S (clock st)) (update_node (with_value (Some v) (S (clock st))) n st)) in
  agree frame st st1 /\ agree subs st st1 /\ same_logs st st1
  /\ pending st1 = enqueue_subs st (subs_of st n) (pending st)
  /\ (forall m, value_of st1 m = if Nat.eqb n m then v else value_of st m).
Proof.
  intros Hn. cbv zeta.
  set (st0 := set_clock (S (clock st)) (update_node (with_value (Some v) (S (clock st))) n st)).
  assert (Hf0 : agree frame st st0) by (apply agree_update; reflexivity).
  assert (Hs0 : agree subs st st0) by (apply agree_update; reflexivity).
  destruct (mark_subscribers_facts st (subs nd) st0 Hf0) as (Hf & Hs & Hv & Hl & Hp).
  refine (conj (agree_trans _ _ _ _ Hf0 Hf) (conj (agree_trans _ _ _ _ Hs0 Hs)
    (conj (same_logs_trans _ _ _ _ Hl) (conj _ _)))).
  - unfold same_logs. auto.
  - rewrite Hp. unfold subs_of. rewrite Hn. reflexivity.
  - intros m. rewrite <- (agree_value_of _ _ m Hv). unfold value_of, st0.
    unfold update_node, set_nodes; simpl. rewrite lookup_alter.
    destruct (decide (n = m)) as [<- |Hne].
    + rewrite Hn, Nat.eqb_refl. reflexivity.
    + apply Nat.eqb_neq in Hne. rewrite Hne. reflexivity.
Qed.

(** The closure of a batch that only writes: no effect runs, the queue
    collects the subscribed effects, the signals take the last values
    written. *)
Lemma closure_phase (f : nat) : forall b st v st',
  writes_only b -> 0 < depth st -> Forall (signal_ok st) (map fst (written b)) ->
  run_body f b st = Ok (v, st') ->
  same_logs st st' /\ agree frame st st' /\ agree subs st st'
  /\ pending st' = enqueue_all st (written b) (pending st)
  /\ (forall m, value_of st' m = last_write (written b) m (value_of st m)).
Proof.
  induction f as [| f IH]; intros b st v st' Hwo Hdep Hok Hrun; [discriminate|].
  destruct Hwo as [r | n w k Hk | b1 k Hb1 Hk].
  - simpl in Hrun. injection Hrun as <- <-.
    refine (conj (same_logs_refl _) (conj (agree_refl _ _) (conj (agree_refl _ _)
      (conj eq_refl (fun m => eq_refl))))).
  - simpl in Hrun. simpl in Hok. apply Forall_cons in Hok as [Hn Hok].
    destruct Hn as (nd & Hn & Hkd & Hd & He).
    destruct f as [| f]; [discriminate|].
    rewrite (write_live f n w st nd Hn Hkd Hd He Hdep) in Hrun. simpl in Hrun.
    destruct (write_live_facts n w st nd Hn) as (Hf1 & Hs1 & Hl1 & Hp1 & Hv1).
    set (st1 := mark_subscribers _ _) in *.
    assert (Hdep1 : 0 < depth st1) by (destruct Hl1 as (_ & _ & ->); exact Hdep).
    assert (Hok1 : Forall (signal_ok st1) (map fst (written k))).
    { eapply Forall_impl; [exact Hok|]. intros x. apply signal_ok_agree. exact Hf1. }
    destruct (IH k st1 v st' Hk Hdep1 Hok1 Hrun) as (Hl & Hf & Hs & Hp & Hv).
    refine (conj (same_logs_trans _ _ _ Hl1 Hl) (conj (agree_trans _ _ _ _ Hf1 Hf)
      (conj (agree_trans _ _ _ _ Hs1 Hs) (conj _ _)))).
    + rewrite Hp, Hp1, <- (enqueue_all_agree st st1 _ _ Hf1 Hs1). reflexivity.
    + intros m. rewrite Hv, Hv1. reflexivity.
  - simpl in Hrun. simpl in Hok. rewrite map_app in Hok.
    apply Forall_app in Hok as [Hok1 Hok2].
    destruct (run_body f b1 (set_depth (S (depth st)) st)) as [[v1 st2] |] eqn:E1;
      [|discriminate].
    simpl in Hrun.
    assert (Hf0 : agree frame st (set_depth (S (depth st)) st))
      by (apply agree_set_nodes; reflexivity).
    destruct (IH b1 (set_depth (S (depth st)) st) v1 st2 Hb1 ltac:(simpl; lia)
                (Forall_impl _ _ _ Hok1 (fun x => signal_ok_agree _ _ x Hf0)) E1)
      as ((Hr2 & Hrd2 & Hd2) & Hf2 & Hs2 & Hp2 & Hv2).
    simpl in Hd2. rewrite Hd2 in Hrun. simpl in Hrun.
    destruct (depth st) as [| d] eqn:Ed; [lia|]. simpl in Hrun.
    set (st3 := set_depth (S d) st2) in *.
    assert (Hf3 : agree frame st st3).
    { eapply agree_trans; [exact Hf0|]. eapply agree_trans; [exact Hf2|].
      apply agree_set_nodes; reflexivity. }
    assert (Hs3 : agree subs st st3).
    { eapply agree_trans; [|apply agree_set_nodes; reflexivity].
      intros m. rewrite <- Hs2. reflexivity. }
    destruct (IH k st3 v st' Hk ltac:(simpl; lia)
                (Forall_impl _ _ _ Hok2 (fun x => signal_ok_agree _ _ x Hf3)) Hrun)
      as ((Hr & Hrd & Hd) & Hf & Hs & Hp & Hv).
    refine (conj _ (conj (agree_trans _ _ _ _ Hf3 Hf)
      (conj (agree_trans _ _ _ _ Hs3 Hs) (conj _ _)))).
    + unfold same_logs. rewrite Hr, Hrd, Hd. simpl. rewrite Hr2, Hrd2, Ed. auto.
    + rewrite Hp. change (pending st3) with (pending st2). rewrite Hp2.
      rewrite (enqueue_all_agree st3 st _ _ (agree_sym _ _ _ Hf3) (agree_sym _ _ _ Hs3)).
      unfold enqueue_all. cbn [written]. rewrite fold_left_app. reflexivity.
    + intros m. rewrite Hv. change (value_of st3 m) with (value_of st2 m).
      rewrite Hv2. unfold last_write. cbn [written]. rewrite fold_left_app. reflexivity.
Qed.

Lemma set_nodes_set_nodes m m' st : set_nodes m' (set_nodes m st) = set_nodes m' st.
Proof. destruct st; reflexivity. Qed.

Lemma agree_update_after {A} (P : Node -> A) (g : Node -> Node) n st st1 :
  agree P st st1 -> (forall x, P (g x) = P x) -> agree P st (update_node g n st1).
Proof. intros H Hg. eapply agree_trans; [exact H | apply agree_update, Hg]. Qed.

Lemma track_shape n st :
  (exists m, track n st = set_nodes m st)
  /\ agree frame st (track n st) /\ agree value st (track n st).
Proof.
  unfold track. destruct (observers st) as [| o os].
  - split; [exists (nodes st); symmetry; apply set_nodes_self|].
    split; apply agree_refl.
  - split; [eexists; unfold update_node; rewrite set_nodes_set_nodes; reflexivity|].
    split; (apply agree_update_after; [apply agree_update|]; reflexivity).
Qed.

Lemma clear_deps_shape o st :
  (exists m, clear_deps o st = set_nodes m st)
  /\ agree frame st (clear_deps o st) /\ agree value st (clear_deps o st).
Proof.
  unfold clear_deps. destruct (nodes st !! o) as [nd|].
  - set (g := fun (d : nat) x => with_subs (remove_id o (subs x)) x).
    change (fun st d => update_node (fun x => with_subs (remove_id o (subs x)) x) d st)
      with (fun st d => update_node (g d) ((fun d : nat => d) d) st).
    destruct (fold_update_set_nodes g (fun d => d) (deps nd) st) as [m Hm].
    split; [rewrite Hm; eexists; unfold update_node; rewrite set_nodes_set_nodes;
            reflexivity|].
    split; (apply agree_update_after; [apply agree_fold_update|]; reflexivity).
  - split; [exists (nodes st); symmetry; apply set_nodes_self|].
    split; apply agree_refl.
Qed.

Lemma reading_step_refl st : reading_step st st.
Proof.
  refine (conj (agree_refl _ _) (conj (agree_refl _ _)
    (conj eq_refl (conj eq_refl (conj eq_refl _))))).
  exists []. split; [symmetry; apply app_nil_r | constructor].
Qed.

Lemma reads_observe_trans st1 st2 st3 :
  agree value st1 st2 -> reads_observe st1 st2 -> reads_observe st2 st3 ->
  reads_observe st1 st3.
Proof.
  intros Hv (R1 & H1 & F1) (R2 & H2 & F2). exists (app R1 R2). split.
  - rewrite H2, H1. symmetry. apply app_assoc.
  - apply Forall_app. split; [exact F1|].
    eapply Forall_impl; [exact F2|]. intros r Hr. rewrite Hr.
    symmetry. apply agree_value_of. exact Hv.
Qed.

Lemma reading_step_trans st1 st2 st3 :
  reading_step st1 st2 -> reading_step st2 st3 -> reading_step st1 st3.
Proof.
  intros (Hf1 & Hv1 & Hp1 & Hr1 & Hd1 & Ho1) (Hf2 & Hv2 & Hp2 & Hr2 & Hd2 & Ho2).
  refine (conj (agree_trans _ _ _ _ Hf1 Hf2) (conj (agree_trans _ _ _ _ Hv1 Hv2)
    (conj _ (conj _ (conj _ (reads_observe_trans _ _ _ Hv1 Ho1 Ho2)))))); congruence.
Qed.

(** Reading a signal changes no value and logs the value it returns. *)
Lemma read_signal f n st v st' :
  signal_kind st n -> read f n st = Ok (v, st') ->
  reading_step st st' /\ v = value_of st n.
Proof.
  intros (nd & Hn & Hk) Hr. destruct f as [| f]; [discriminate|].
  simpl in Hr. rewrite Hn in Hr. destruct (disposed nd).
  - injection Hr as <- <-. split; [|unfold value_of; rewrite Hn; reflexivity].
    refine (conj (agree_set_nodes _ _ _ eq_refl) (conj (agree_set_nodes _ _ _ eq_refl)
      (conj eq_refl (conj eq_refl (conj eq_refl _))))).
    exists []. split; [symmetry; apply app_nil_r | constructor].
  - rewrite Hk in Hr. simpl in Hr. rewrite Hn in Hr. injection Hr as <- <-.
    split; [|unfold value_of; rewrite Hn; reflexivity].
    destruct (track_shape n st) as ([m Hm] & Hf & Hv).
    refine (conj _ (conj _ (conj _ (conj _ (conj _ _))))).
    + intros x. rewrite (Hf x). reflexivity.
    + intros x. rewrite (Hv x). reflexivity.
    + simpl. rewrite Hm. reflexivity.
    + simpl. rewrite Hm. reflexivity.
    + simpl. rewrite Hm. reflexivity.
    + exists [(head (observers st), n, default 0 (value nd))]. split.
      * simpl. rewrite Hm. reflexivity.
      * constructor; [|constructor]. simpl. unfold value_of. rewrite Hn. reflexivity.
Qed.

(** Running a closure that only reads signals. *)
Lemma body_reads (f : nat) : forall b st v st',
  reads_signals st b -> run_body f b st = Ok (v, st') -> reading_step st st'.
Proof.
  induction f as [| f IH]; intros b st v st' Hb Hrun; [discriminate|].
  destruct Hb as [r | n k Hn Hk].
  - simpl in Hrun. injection Hrun as <- <-. apply reading_step_refl.
  - simpl in Hrun. destruct (read f n st) as [[x st1] |] eqn:E; [|discriminate].
    simpl in Hrun. destruct (read_signal f n st x st1 Hn E) as [H1 _].
    eapply reading_step_trans; [exact H1|].
    eapply IH; [|exact Hrun].
    eapply reads_signals_agree; [apply H1 | apply Hk].
Qed.

(** Rerunning an effect whose closure only reads signals. *)
Lemma run_effect_reads f e st st' :
  effect_ok st e -> run_effect f e st = Ok st' ->
  agree frame st st' /\ agree value st st' /\ pending st' = pending st
  /\ run_log st' = app (run_log st) [e] /\ depth st' = depth st /\ reads_observe st st'.
Proof.
  intros (nd & Hn & _ & _ & Hb) Hr. destruct f as [| f]; [discriminate|].
  simpl in Hr. rewrite Hn in Hr.
  destruct (clear_deps_shape e (log_run e st)) as ([m Hm] & Hf0 & Hv0).
  set (st1 := set_observers (e :: observers st) (clear_deps e (log_run e st))) in Hr.
  destruct (run_body f (body nd) st1) as [[x st2] |] eqn:E; [|discriminate].
  simpl in Hr. injection Hr as <-.
  assert (Hf1 : agree frame st st1).
  { intros y. exact (Hf0 y). }
  assert (Hv1 : agree value st st1).
  { intros y. exact (Hv0 y). }
  destruct (body_reads f (body nd) st1 x st2 (reads_signals_agree _ _ _ Hf1 Hb) E)
    as (Hf & Hv & Hp & Hrl & Hd & Ho).
  refine (conj _ (conj _ (conj _ (conj _ (conj _ _))))).
  - intros y. rewrite (Hf1 y), (Hf y). reflexivity.
  - intros y. rewrite (Hv1 y), (Hv y). reflexivity.
  - simpl. rewrite Hp. unfold st1. simpl. rewrite Hm. reflexivity.
  - simpl. rewrite Hrl. unfold st1. simpl. rewrite Hm. reflexivity.
  - simpl. rewrite Hd. unfold st1. simpl. rewrite Hm. reflexivity.
  - destruct Ho as (R & HR & FR). exists R. split.
    + simpl. rewrite HR. unfold st1. simpl. rewrite Hm. reflexivity.
    + eapply Forall_impl; [exact FR|]. intros r Hr. rewrite Hr.
      symmetry. apply agree_value_of. exact Hv1.
Qed.

Lemma count_not_In e l : ~ In e l -> count e l = 0.
Proof.
  unfold count. induction l as [| a l IH]; intro H; simpl; [reflexivity|].
  destruct (Nat.eqb e a) eqn:E.
  - apply Nat.eqb_eq in E. subst. exfalso. apply H. left. reflexivity.
  - apply IH. intro Hin. apply H. right. exact Hin.
Qed.

(** Draining a queue of distinct live effects that only read signals:
    each runs once, in queue order. *)
Lemma drain_reads (f : nat) : forall counts st st',
  Forall (effect_ok st) (pending st) -> NoDup (pending st) ->
  (forall e, In e (pending st) -> ~ In e counts) ->
  drain f counts st = Ok st' ->
  agree frame st st' /\ agree value st st' /\ pending st' = []
  /\ run_log st' = app (run_log st) (pending st) /\ depth st' = depth st
  /\ reads_observe st st'.
Proof.
  induction f as [| f IH]; intros counts st st' Hok Hnd Hc Hd; [discriminate|].
  simpl in Hd. destruct (pending st) as [| e q] eqn:Ep.
  - injection Hd as <-.
    destruct (reading_step_refl st) as (Hf & Hv & _ & _ & Hdp & Ho).
    refine (conj Hf (conj Hv (conj Ep (conj _ (conj Hdp Ho))))).
    symmetry. apply app_nil_r.
  - apply Forall_cons in Hok as [He Hq].
    destruct He as (nd & Hn & Hk & Hdisp & Hb).
    rewrite Hn, Hdisp, Hk in Hd. simpl in Hd.
    rewrite (count_not_In e counts (Hc e (or_introl eq_refl))) in Hd. simpl in Hd.
    destruct (run_effect f e (set_pending q st)) as [st2 |] eqn:E; [|discriminate].
    simpl in Hd.
    assert (Hf1 : agree frame st (set_pending q st)) by (apply agree_set_nodes; reflexivity).
    destruct (run_effect_reads f e (set_pending q st) st2
                (effect_ok_agree st _ e Hf1 (ex_intro _ nd (conj Hn (conj Hk (conj Hdisp Hb))))) E)
      as (Hf2 & Hv2 & Hp2 & Hr2 & Hd2 & Ho2).
    simpl in Hp2, Hr2, Hd2.
    apply NoDup_cons in Hnd as [Hnin Hnd].
    destruct (IH (e :: counts) st2 st') as (Hf & Hv & Hp & Hr & Hdp & Ho).
    + rewrite Hp2. eapply Forall_impl; [exact Hq|]. intros x.
      apply effect_ok_agree. exact (agree_trans _ _ _ _ Hf1 Hf2).
    + rewrite Hp2. exact Hnd.
    + rewrite Hp2. intros x Hx [<- | Hx'].
      * apply Hnin. apply list_elem_of_In. exact Hx.
      * apply (Hc x (or_intror Hx) Hx').
    + exact Hd.
    + refine (conj (agree_trans _ _ _ _ Hf1 (agree_trans _ _ _ _ Hf2 Hf))
        (conj (agree_trans _ _ _ _ (agree_set_nodes _ _ _ eq_refl)
                 (agree_trans _ _ _ _ Hv2 Hv))
        (conj Hp (conj _ (conj _ _))))).
      * rewrite Hr, Hr2, Hp2. rewrite <- app_assoc. reflexivity.
      * rewrite Hdp, Hd2. reflexivity.
      * apply (reads_observe_trans st st2 st').
        -- exact (agree_trans _ _ _ _ (agree_set_nodes _ _ _ eq_refl) Hv2).
        -- exact Ho2.
        -- exact Ho.
Qed.

(** C5 (amended). A batch, started outside any batch with an empty queue,
    whose closure only writes live signals without equality-skip (possibly
    in nested batches), and in which every effect subscribed to a written
    signal is live and only reads signals: while the closure runs no effect
    runs and the queue [Q] collects the subscribed effects, each once, in
    order of first enqueueing; at the outermost exit each effect of [Q]
    reruns exactly once, in that order; every read of those reruns returns
    the value the signal holds at the end, the last value the batch wrote
    to it; the queue is empty and the depth back to 0 at the end. *)
Theorem batch_effects_once f b st st' :
  writes_only b -> depth st = 0 -> pending st = [] ->
  Forall (signal_ok st) (map fst (written b)) ->
  (forall n e, In n (map fst (written b)) -> In e (subs_of st n) ->
               is_effect st e = true -> effect_ok st e) ->
  batch f b st = Ok st' ->
  let Q := enqueue_all st (written b) [] in
  (forall f1 v st1, run_body f1 b (set_depth 1 st) = Ok (v, st1) ->
     run_log st1 = run_log st /\ pending st1 = Q)
  /\ run_log st' = app (run_log st) Q
  /\ NoDup Q
  /\ (forall e, In e Q <->
        is_effect st e = true /\ exists n v, In (n, v) (written b) /\ In e (subs_of st n))
  /\ (forall n, value_of st' n = last_write (written b) n (value_of st n))
  /\ (exists R, read_log st' = app (read_log st) R
        /\ Forall (fun r => snd r = value_of st' (snd (fst r))) R)
  /\ pending st' = [] /\ depth st' = 0.
Proof.
  intros Hwo Hd0 Hp0 Hok Heff Hb Q.
  assert (Hf0 : agree frame st (set_depth 1 st)) by (apply agree_set_nodes; reflexivity).
  assert (Hok1 : Forall (signal_ok (set_depth 1 st)) (map fst (written b)))
    by exact (Forall_impl _ _ _ Hok (fun x => signal_ok_agree _ _ x Hf0)).
  assert (Hclosure : forall f1 v st1, run_body f1 b (set_depth 1 st) = Ok (v, st1) ->
            same_logs (set_depth 1 st) st1 /\ agree frame st st1 /\ agree subs st st1
            /\ pending st1 = Q
            /\ (forall m, value_of st1 m = last_write (written b) m (value_of st m))).
  { intros f1 v st1 H.
    destruct (closure_phase f1 b (set_depth 1 st) v st1 Hwo ltac:(simpl; lia) Hok1 H)
      as (Hl & Hf & Hs & Hp & Hv).
    refine (conj Hl (conj (agree_trans _ _ _ _ Hf0 Hf) (conj Hs (conj _ Hv)))).
    rewrite Hp. simpl. rewrite Hp0. reflexivity. }
  assert (HQ : forall e, In e Q <->
            is_effect st e = true /\ exists n v, In (n, v) (written b) /\ In e (subs_of st n)).
  { intros e. unfold Q. rewrite enqueue_all_In. simpl. tauto. }
  assert (HnQ : NoDup Q) by (apply enqueue_all_NoDup; constructor).
  unfold batch in Hb. destruct f as [| f1]; [discriminate|]. simpl in Hb.
  rewrite Hd0 in Hb.
  destruct (run_body f1 b (set_depth 1 st)) as [[v st2] |] eqn:E1; [|discriminate].
  destruct (Hclosure f1 v st2 E1) as ((Hr2 & Hrd2 & Hd2) & Hf2 & Hs2 & Hp2 & Hv2).
  simpl in Hr2, Hrd2, Hd2. simpl in Hb. rewrite Hd2 in Hb. simpl in Hb.
  destruct f1 as [| f2]; [discriminate|]. simpl in Hb.
  destruct (drain f2 [] (set_depth 1 (set_depth 0 st2))) as [st5 |] eqn:E2;
    [|discriminate].
  simpl in Hb. injection Hb as <-.
  set (std := set_depth 1 (set_depth 0 st2)) in E2.
  assert (Hfd : agree frame st std).
  { eapply agree_trans; [exact Hf2 | apply agree_set_nodes; reflexivity]. }
  destruct (drain_reads f2 [] std st5) as (Hf5 & Hv5 & Hp5 & Hr5 & Hd5 & Ho5).
  - change (pending std) with (pending st2). rewrite Hp2.
    apply Forall_forall. intros e He. apply list_elem_of_In, HQ in He as (Hie & n & w & Hin & Hs).
    apply (effect_ok_agree st std e Hfd).
    apply (Heff n e); [apply in_map_iff; exists (n, w); auto | exact Hs | exact Hie].
  - change (pending std) with (pending st2). rewrite Hp2. exact HnQ.
  - intros e _ [].
  - exact E2.
  - refine (conj _ (conj _ (conj HnQ (conj HQ (conj _ (conj _ (conj _ _))))))).
    + intros f1 w st1 H. destruct (Hclosure f1 w st1 H) as ((Hr & _ & _) & _ & _ & Hp & _).
      split; [exact Hr | exact Hp].
    + simpl. rewrite Hr5. change (pending std) with (pending st2). rewrite Hp2.
      change (run_log std) with (run_log st2). rewrite Hr2. reflexivity.
    + intros n. change (value_of (set_depth (pred (depth st5)) st5) n)
        with (value_of st5 n).
      rewrite <- (agree_value_of std st5 n Hv5). apply Hv2.
    + destruct Ho5 as (R & HR & FR). exists R. split.
      * simpl. rewrite HR. change (read_log std) with (read_log st2). rewrite Hrd2.
        reflexivity.
      * eapply Forall_impl; [exact FR|]. intros r Hr. rewrite Hr.
        apply agree_value_of. exact Hv5.
    + exact Hp5.
    + simpl. rewrite Hd5. reflexivity.
Qed.

Lemma batch_effects_once_witness :
  writes_only example_batch /\
  exists st', batch fuel example_batch example_state = Ok st'
              /\ run_log st' = app (run_log example_state) [2; 3]
              /\ value_of st' 1 = 2.
Proof.
  assert (Hwo : writes_only example_batch) by repeat constructor.
  split; [exact Hwo|].
  destruct (batch fuel example_batch example_state) as [st' |] eqn:Eb.
  2: { vm_compute in Eb. discriminate. }
  exists st'. split; [reflexivity|].
  assert (Hs1 : signal_ok example_state 1).
  { unfold signal_ok. lookup_node example_state 1.
    eexists; split; [reflexivity|]. repeat split. }
  assert (Hk1 : signal_kind example_state 1).
  { destruct Hs1 as (nd & Hn & Hk & _). exists nd. auto. }
  destruct (batch_effects_once fuel example_batch example_state st' Hwo
              ltac:(vm_compute; reflexivity) ltac:(vm_compute; reflexivity)
              ltac:(simpl; repeat constructor; exact Hs1)) as (_ & Hr & _ & _ & Hv & _).
  - intros n e Hn He _. simpl in Hn.
    assert (n = 1) as -> by (destruct Hn as [<- | [<- | []]]; reflexivity).
    vm_compute in He. unfold effect_ok.
    destruct He as [<- | [<- | []]];
      [lookup_node example_state 2 | lookup_node example_state 3];
      (eexists; split; [reflexivity|]); repeat split;
      (constructor; [exact Hk1 | intros w; constructor]).
  - exact Eb.
  - split.
    + rewrite Hr. f_equal.
    + rewrite Hv. vm_compute. reflexivity.
Defined.

(** C5 (counterexample). The claim fails in two ways. An effect that writes
    a signal inside a rerun enqueues the effects of that signal again: after
    [chain_setup], [batch(|| { write(b, 1); write(a, 2); })] reruns [Eb]
    (3), then [Ea] (4), which writes [b := 2], then [Eb] again; the first
    rerun of [Eb] reads [b == 1], not the final [2]. And a write of the
    current value of an equality-skip signal enqueues nothing: the effect
    reading it does not rerun. *)
Lemma batch_reruns_counterexample :
  (exists st st', chain_run = Ok (st, st')
     /\ run_log st' = app (run_log st) [3; 4; 3]
     /\ value_of st' 2 = 2
     /\ nth_error (read_log st') (length (read_log st)) = Some (Some 3, 2, 1))
  /\ (exists st st', skip_batch_run = Ok (st, st')
     /\ subs_of st 1 = [2] /\ run_log st' = run_log st).
Proof.
  split.
  - destruct chain_run as [[st st'] |] eqn:E; [|vm_compute in E; discriminate].
    exists st, st'. split; [reflexivity|].
    vm_compute in E. injection E as <- <-. vm_compute. auto.
  - destruct skip_batch_run as [[st st'] |] eqn:E; [|vm_compute in E; discriminate].
    exists st, st'. split; [reflexivity|].
    vm_compute in E. injection E as <- <-. vm_compute. auto.
Qed.

End RuntimeProps.

(* ================================================================== *)
(** ** Further properties of the server builders *)
(* ================================================================== *)

Module BuilderProps.
Import Html SsrProps.

Lemma resolve_attr_not_fn {Env : Type} (env : Env) (a : Attribute Env) :
  forall c f, resolve_attr env a <> AttrFn c f.
Proof.
  induction a as [s | c0 f0 IH | c0 o | b]; intros c f; simpl; try discriminate.
  apply IH.
Qed.

Lemma with_attrs_self {HK : Type} (h : HtmlElement HK) : with_attrs h (attrs h) = h.
Proof. destruct h; reflexivity. Qed.

Lemma with_attrs_twice {HK : Type} (h : HtmlElement HK) a b :
  with_attrs (with_attrs h a) b = with_attrs h b.
Proof. destruct h; reflexivity. Qed.

Lemma string_app_assoc (a b c : string) : ((a ++ b) ++ c)%string = (a ++ b ++ c)%string.
Proof. induction a as [| x a IH]; [reflexivity | exact (f_equal (String x) IH)]. Qed.

Lemma concat_space_cons (v m : string) (ns : list string) :
  String.concat " " ((v ++ " " ++ m)%string :: ns)
  = (v ++ " " ++ String.concat " " (m :: ns))%string.
Proof.
  destruct ns as [| x ns]; simpl; [reflexivity|].
  rewrite string_app_assoc. reflexivity.
Qed.

Lemma class_ssr_true_step {HK Env : Type} (env : Env) (h : HtmlElement HK) pre v m :
  ~ In "class" (map fst pre) ->
  class_ssr env (with_attrs h (app pre [("class", v)])) m (ClassValue true)
  = with_attrs h (app pre [("class", v ++ " " ++ m)]).
Proof.
  intros Hpre. unfold class_ssr. cbn [attrs with_attrs].
  rewrite (append_to_class_first m pre v [] Hpre). apply with_attrs_twice.
Qed.

Lemma class_fold_true {HK Env : Type} (env : Env) (h : HtmlElement HK) pre ns :
  forall v, ~ In "class" (map fst pre) ->
  attrs (fold_left (fun h m => class_ssr env h m (ClassValue true)) ns
           (with_attrs h (app pre [("class", v)])))
  = app pre [("class", String.concat " " (v :: ns))].
Proof.
  induction ns as [| m ns IH]; intros v Hpre; [reflexivity|].
  simpl. rewrite (class_ssr_true_step env h pre v m Hpre), IH by exact Hpre.
  rewrite concat_space_cons. reflexivity.
Qed.

(** X1. On the server, [attr] never reaches its [unreachable!()]: it only
    appends, after the attributes already there, either nothing or one
    pair named [name]; it appends nothing exactly when the value,
    after calling its closures, is [false] or [None]. *)
Theorem attr_ssr_appends {HK Env : Type} (env : Env) (h : HtmlElement HK)
    (name : string) (a : Attribute Env) :
  exists extra,
    attr_ssr env h name a = Some (with_attrs h (app (attrs h) extra))
    /\ (extra = [] \/ exists v, extra = [(name, v)])
    /\ (extra = [] <-> resolve_attr env a = AttrBool false
                      \/ exists c, resolve_attr env a = AttrOption c None).
Proof.
  unfold attr_ssr. destruct (resolve_attr env a) as [s | c f | c [v |] | [|]] eqn:E.
  - exists [(name, s)]. split; [reflexivity|]. split; [right; eauto|].
    split; [discriminate | intros [H | [c H]]; discriminate].
  - exfalso. exact (resolve_attr_not_fn env a c f E).
  - exists [(name, v)]. split; [reflexivity|]. split; [right; eauto|].
    split; [discriminate | intros [H | [c' H]]; discriminate].
  - exists []. rewrite app_nil_r, with_attrs_self. split; [reflexivity|].
    split; [left; reflexivity|]. split; [intros _; right; eauto | reflexivity].
  - exists [(name, "")]. split; [reflexivity|]. split; [right; eauto|].
    split; [discriminate | intros [H | [c H]]; discriminate].
  - exists []. rewrite app_nil_r, with_attrs_self. split; [reflexivity|].
    split; [left; reflexivity|]. split; [intros _; left; reflexivity | reflexivity].
Qed.

(** X2. On the server, an element given an [id] renders with that id
    kept and its hydration key moved to [leptos-hk]: its attributes are
    the earlier ones, then [("id", id)], then
    [("leptos-hk", "_" ++ key)]. *)
Theorem id_into_view_ssr {HK : Type} (fmt : HK -> string) (h : HtmlElement HK)
    (id : string) :
  into_view_ssr fmt (id_ssr h id)
  = ViewElement (mkElement (ed_name (element h)) (ed_is_void (element h))
                   (ed_hydration_id (element h))
                   (app (attrs h) [("id", id); ("leptos-hk", "_" ++ fmt (ed_hydration_id (element h)))])
                   (children h) (prerendered h)).
Proof.
  destruct h as [c e a ch p]. unfold into_view_ssr, id_ssr, with_attrs. simpl.
  assert (Hin : existsb (fun '(name, _) => String.eqb name "id") (app a [("id", id)]) = true).
  { apply existsb_name_in. rewrite map_app. apply in_or_app. right. left. reflexivity. }
  rewrite Hin. rewrite <- app_assoc. reflexivity.
Qed.

(** X3. On the server, [inner_html(html)] replaces all children by one
    non-void ["inner-html"] element that holds [html] as prerendered
    content, has only its hydration [id] attribute and no children;
    the element's own attributes and prerendered content stay. Children
    added before are dropped, children added after follow it. *)
Theorem inner_html_ssr_children {HK : Type} (fmt : HK -> string) (dflt : HK)
    (h : HtmlElement HK) (html : string) :
  children (inner_html_ssr fmt dflt h html)
  = [ViewElement (mkElement "inner-html" false dflt [("id", "_" ++ fmt dflt)] [] (Some html))]
  /\ attrs (inner_html_ssr fmt dflt h html) = attrs h
  /\ element (inner_html_ssr fmt dflt h html) = element h
  /\ prerendered (inner_html_ssr fmt dflt h html) = prerendered h
  /\ (forall c, children (inner_html_ssr fmt dflt (child_ssr h c) html)
                = children (inner_html_ssr fmt dflt h html))
  /\ (forall c, children (child_ssr (inner_html_ssr fmt dflt h html) c)
                = app (children (inner_html_ssr fmt dflt h html)) [c]).
Proof.
  repeat split; reflexivity.
Qed.

(** X4. On the server, [custom(cx, el)] renders as an element with
    [el]'s name and hydration id, never void (even when [el] is a void
    tag), with only its hydration [id] attribute, no children and
    nothing prerendered. *)
Theorem custom_into_view_ssr {HK : Type} (fmt : HK -> string) (c : nat)
    (el : ElementDescriptor HK) :
  into_view_ssr fmt (custom c el)
  = ViewElement (mkElement (ed_name el) false (ed_hydration_id el)
                   [("id", "_" ++ fmt (ed_hydration_id el))] [] None).
Proof. reflexivity. Qed.

(** X5. On the server, classes applied with [true] to an element without
    a ["class"] attribute accumulate in one ["class"] attribute, added
    after the existing ones, whose value is the class names in call
    order separated by single spaces. *)
Theorem class_ssr_accumulates {HK Env : Type} (env : Env) (h : HtmlElement HK)
    (n : string) (ns : list string) :
  ~ In "class" (map fst (attrs h)) ->
  attrs (fold_left (fun h m => class_ssr env h m (ClassValue true)) (n :: ns) h)
  = app (attrs h) [("class", String.concat " " (n :: ns))].
Proof.
  intros H. cbn [fold_left].
  assert (E : class_ssr env h n (ClassValue true) = with_attrs h (app (attrs h) [("class", n)])).
  { unfold class_ssr. rewrite (proj2 (append_to_class_none n (attrs h)) H). reflexivity. }
  rewrite E. apply class_fold_true. exact H.
Qed.

Lemma class_ssr_accumulates_witness :
  ~ In "class" (map fst (attrs (HtmlElement_new 0 (mkElementDescriptor "div" false 0))))
  /\ attrs (fold_left (fun h m => class_ssr tt h m (ClassValue true)) ["a"; "b"; "c"]
              (HtmlElement_new 0 (mkElementDescriptor "div" false 0)))
     = [("class", "a b c")].
Proof.
  split; [simpl; tauto|].
  rewrite (class_ssr_accumulates tt (HtmlElement_new 0 (mkElementDescriptor "div" false 0))
             "a" ["b"; "c"]) by (simpl; tauto).
  reflexivity.
Defined.

Lemma prop_runs_some {Env JsValue : Type} (eqb : JsValue -> JsValue -> bool)
    (undef : JsValue) (name : string) c (f : Env -> JsValue) re :
  prop_web eqb undef name (PropFn c f) = ([], Some re) ->
  forall es p,
  prop_effect_runs re (Some p) es
  = flat_map (fun pn => if eqb (fst pn) (snd pn) then [] else [SetProperty name (snd pn)])
      (combine (p :: map f es) (map f es)).
Proof.
  intros Hre. injection Hre as <-.
  induction es as [| e es IH]; intro p; [reflexivity|].
  cbn [prop_effect_runs map combine flat_map fst snd]. rewrite IH.
  destruct (eqb p (f e)); reflexivity.
Qed.

(** X6. In the browser, [prop] with a function value sets nothing at
    once and registers a render effect whose first run sets the property
    unless the value is [undefined], and whose later runs set it exactly
    when the value differs from the run before; a plain value is set
    once, with no effect. *)
Theorem prop_web_runs {Env JsValue : Type} (eqb : JsValue -> JsValue -> bool)
    (undef : JsValue) (name : string) :
  (forall c (f : Env -> JsValue) e0 es,
     exists re,
       prop_web eqb undef name (PropFn c f) = ([], Some re)
       /\ prop_effect_runs re None (e0 :: es)
          = app (if eqb (f e0) undef then [] else [SetProperty name (f e0)])
                (flat_map (fun pn => if eqb (fst pn) (snd pn) then []
                                     else [SetProperty name (snd pn)])
                   (combine (map f (e0 :: es)) (map f es))))
  /\ (forall v, prop_web (Env := Env) eqb undef name (PropValue v)
                = ([SetProperty name v], None)).
Proof.
  split; [|reflexivity].
  intros c f e0 es. eexists. split; [reflexivity|].
  cbn [prop_effect_runs map]. rewrite (prop_runs_some eqb undef name c f _ eq_refl).
  destruct (eqb (f e0) undef); reflexivity.
Qed.

End BuilderProps.

(* ================================================================== *)
(** ** Further properties of [<Title/>] *)
(* ================================================================== *)

Module TitleComponentProps.
Import Title.

(** X7. [<Title/>] components compose through the shared context: a
    [formatter] given by one and a [text] given by another, in either
    order, give the formatted text; a later [text] replaces the earlier
    one and keeps the formatter; a [<Title/>] without props changes
    nothing. *)
Theorem title_props_compose (c : TitleContext) (g : Formatter) (t t' : TextProp) :
  as_string (Title_ssr None (Some t) (Title_ssr (Some g) None c))
  = Some (format_fn g (text_fn t tt))
  /\ as_string (Title_ssr (Some g) None (Title_ssr None (Some t) c))
     = Some (format_fn g (text_fn t tt))
  /\ Title_ssr None (Some t') (Title_ssr None (Some t) c) = Title_ssr None (Some t') c
  /\ Title.formatter (Title_ssr None (Some t) c) = Title.formatter c
  /\ Title_ssr None None c = c.
Proof.
  destruct c as [f0 t0]. repeat split; reflexivity.
Qed.

(** X8. In the browser, [<Title/>] panics exactly when the context holds
    no element, the document has no [<title>] and no [<head>]. When it
    does not panic it never stores the element in the context, and it
    adds no [<title>] when the document has one already. *)
Theorem title_csr_element (fo : option Formatter) (to : option TextProp)
    (m : WebTitleContext) (doc : Document) :
  (Title_csr fo to m doc = None
   <-> el m = None /\ title_els doc = [] /\ has_head doc = false)
  /\ (forall m' doc', Title_csr fo to m doc = Some (m', doc') ->
        el m' = el m /\ (title_els doc <> [] -> title_els doc' = title_els doc)).
Proof.
  unfold Title_csr, title_element. simpl.
  destruct (el m) as [e |]; [| destruct (title_els doc) as [| t ts] eqn:Et;
                                [destruct (has_head doc) eqn:Eh |]].
  all: split; [split; [intros H; try discriminate | intros (H1 & H2 & H3); try discriminate]|].
  all: try (intros m' doc' H; injection H as <- <-; simpl; split; [reflexivity|]).
  all: try (intros _; reflexivity).
  all: try (rewrite Et; reflexivity).
  all: try (intros H; exfalso; apply H; reflexivity).
  - split; [reflexivity | split; reflexivity].
  - congruence.
  - intros m' doc' H. discriminate.
Qed.

(** X9. In the browser, [<Title/>] writes [as_string()] of the updated
    context, or [""] when no text is set, into one element: the cached
    one, else the document's first [<title>], else a new [<title>]; no
    other text changes. *)
Theorem title_csr_text (fo : option Formatter) (to : option TextProp)
    (m : WebTitleContext) (doc : Document) m' doc' :
  Title_csr fo to m doc = Some (m', doc') ->
  title_ctx m' = title_set_props fo to (title_ctx m)
  /\ text_content doc'
     = <[match el m with
         | Some e => e
         | None => match title_els doc with t :: _ => t | [] => next_node doc end
         end := default "" (as_string (title_ctx m'))]> (text_content doc).
Proof.
  unfold Title_csr, title_element. simpl.
  destruct (el m) as [e |]; [| destruct (title_els doc) as [| t ts];
                                [destruct (has_head doc) |]];
    intros H; try discriminate; injection H as <- <-; split; reflexivity.
Qed.

Lemma title_csr_text_witness :
  exists m' doc',
    Title_csr None (Some (mkTextProp (fun _ => "Page A")))
      (mkWebTitleContext None (mkTitleContext (Some (mkFormatter (fun s => s ++ " - Site"))) None))
      (mkDocument [] true 7 ∅) = Some (m', doc')
    /\ text_content doc' !! 7 = Some "Page A - Site".
Proof.
  do 2 eexists. split; [reflexivity|].
  destruct (title_csr_text None (Some (mkTextProp (fun _ => "Page A")))
              (mkWebTitleContext None (mkTitleContext (Some (mkFormatter (fun s => s ++ " - Site"))) None))
              (mkDocument [] true 7 ∅) _ _ eq_refl) as [_ Ht].
  rewrite Ht. reflexivity.
Defined.

(** X10. In the browser, two [<Title/>] components rendered one after the
    other into a document with a [<head>] and no [<title>] create
    exactly one [<title>] and both write into it; the last write is
    the title of the combined context. *)
Theorem title_csr_one_element (f1 f2 : option Formatter) (t1 t2 : option TextProp)
    (m : WebTitleContext) (doc : Document) :
  el m = None -> title_els doc = [] -> has_head doc = true ->
  exists m1 d1 m2 d2,
    Title_csr f1 t1 m doc = Some (m1, d1)
    /\ Title_csr f2 t2 m1 d1 = Some (m2, d2)
    /\ title_els d2 = [next_node doc]
    /\ el m2 = None
    /\ text_content d2 !! next_node doc
       = Some (default "" (as_string (title_set_props f2 t2 (title_set_props f1 t1 (title_ctx m))))).
Proof.
  intros He Ht Hh. unfold Title_csr, title_element. simpl.
  rewrite He, Ht, Hh. simpl.
  do 4 eexists. split; [reflexivity|]. split; [reflexivity|].
  split; [reflexivity|]. split; [reflexivity|].
  simpl. rewrite lookup_insert. case_decide; [reflexivity | congruence].
Qed.

Lemma title_csr_one_element_witness :
  el (mkWebTitleContext None (mkTitleContext None None)) = None
  /\ exists m1 d1 m2 d2,
    Title_csr (Some (mkFormatter (fun s => s ++ " - Site"))) None
      (mkWebTitleContext None (mkTitleContext None None)) (mkDocument [] true 3 ∅)
      = Some (m1, d1)
    /\ Title_csr None (Some (mkTextProp (fun _ => "Home"))) m1 d1 = Some (m2, d2)
    /\ title_els d2 = [3]
    /\ text_content d2 !! 3 = Some "Home - Site".
Proof.
  split; [reflexivity|].
  destruct (title_csr_one_element (Some (mkFormatter (fun s => s ++ " - Site"))) None
              None (Some (mkTextProp (fun _ => "Home")))
              (mkWebTitleContext None (mkTitleContext None None)) (mkDocument [] true 3 ∅)
              eq_refl eq_refl eq_refl)
    as (m1 & d1 & m2 & d2 & H1 & H2 & H3 & _ & H5).
  exists m1, d1, m2, d2. split; [exact H1|]. split; [exact H2|]. split; [exact H3|].
  exact H5.
Defined.

End TitleComponentProps.

(* ================================================================== *)
(** ** [PartialEq] of [SignalSetter] *)
(* ================================================================== *)

Module SetterEqProps.
Import SignalSetters.

(** X11. [SignalSetter]'s [==] is [WriteSignal]'s [==] on two [Write]
    setters, [false] between a [Write] and a [Mapped] setter, and on two
    [Mapped] setters compares their addresses, not their contents: a
    [Mapped] setter equals itself but not a copy of it stored elsewhere,
    although both call the same closure. *)
Theorem signal_setter_eq_spec (wse : WriteSignal -> WriteSignal -> bool) (off : nat) :
  (forall a b w1 w2,
     signal_setter_eq wse off a (mkSignalSetter (Write w1)) b (mkSignalSetter (Write w2))
     = wse w1 w2)
  /\ (forall a b w c h,
        signal_setter_eq wse off a (mkSignalSetter (Write w)) b (mkSignalSetter (Mapped c h))
        = false
        /\ signal_setter_eq wse off a (mkSignalSetter (Mapped c h)) b (mkSignalSetter (Write w))
           = false)
  /\ (forall a b c1 h1 c2 h2,
        signal_setter_eq wse off a (mkSignalSetter (Mapped c1 h1)) b (mkSignalSetter (Mapped c2 h2))
        = Nat.eqb a b)
  /\ (forall a b c h, a <> b ->
        signal_setter_eq wse off a (mkSignalSetter (Mapped c h)) b (mkSignalSetter (Mapped c h))
        = false).
Proof.
  split; [reflexivity|]. split; [intros; split; reflexivity|]. split.
  - intros a b c1 h1 c2 h2. simpl.
    destruct (Nat.eqb_spec a b) as [-> | Hne].
    + apply Nat.eqb_refl.
    + apply Nat.eqb_neq. lia.
  - intros a b c h Hne. simpl. apply Nat.eqb_neq. lia.
Qed.

End SetterEqProps.
